(** * UIGen: tool-call badge, virtual file system, import resolution and
      module graph assembly

The first part embeds [src/components/chat/ToolCallBadge.tsx] as it is
written.  The later parts model the virtual file system
([src/lib/file-system.ts]) and the preview pipeline
([src/lib/transform/jsx-transformer.ts]) from their specification and
from [CLAUDE.md]. *)

From Stdlib Require Import Floats.SpecFloat Ascii.
From stdpp Require Import gmap strings list fin_maps.

Set Warnings "-register-all".

(** ** JavaScript values

[result?: unknown] and the index signature [[key: string]: unknown] of
[args] hold arbitrary JavaScript values.  Numbers are IEEE-754 doubles,
represented by their specification ([spec_float]). *)

Inductive JsValue : Type :=
| JsUndefined
| JsNull
| JsBool (b : bool)
| JsNumber (x : spec_float)
| JsString (s : string)
| JsArray (items : list JsValue)
| JsObject (fields : list (string * JsValue)).

(** ECMAScript [ToBoolean]: the falsy values are [undefined], [null],
    [false], [+0], [-0], [NaN] and the empty string. *)
Definition truthy (v : JsValue) : bool :=
  match v with
  | JsUndefined | JsNull => false
  | JsBool b => b
  | JsNumber (S754_zero _) | JsNumber S754_nan => false
  | JsNumber _ => true
  | JsString "" => false
  | JsString _ => true
  | JsArray _ | JsObject _ => true
  end.

(** [a || b] on an optional string: [undefined] and [""] are falsy. *)
Definition or_default (a : option string) (b : string) : string :=
  match a with
  | None | Some "" => b
  | Some s => s
  end.

(** [a && b]: the left operand when it is falsy, the right one otherwise. *)
Definition js_and (a b : JsValue) : JsValue :=
  if truthy a then b else a.

(** ** ToolCallBadge.tsx *)

Module Badge.

Inductive State : Type := partial_call | call | result_state.

(** [state === "result"] *)
Definition is_result (s : State) : bool :=
  match s with result_state => true | _ => false end.

(** The [args] object: three optional string fields and any further
    entries. *)
Record Args : Type := mkArgs {
  command : option string;
  path : option string;
  new_path : option string;
  other : list (string * JsValue)
}.

Record ToolInvocation : Type := mkToolInvocation {
  toolCallId : string;
  toolName : string;
  args : Args;
  state : State;
  result : option JsValue
}.

(** A [switch (command)] compares [command] with each [case] label in
    turn by strict equality; the cascades below are the two switches. *)
Definition getToolCallMessage (toolInvocation : ToolInvocation) : string :=
  let toolName := toolName toolInvocation in
  let args := args toolInvocation in
  if decide (toolName = "str_replace_editor") then
    let command := command args in
    let path := or_default (path args) "" in
    if decide (command = Some "create") then "Creating " +:+ path
    else if decide (command = Some "view") then "Viewing " +:+ path
    else if decide (command = Some "str_replace") then "Editing " +:+ path
    else if decide (command = Some "insert") then "Editing " +:+ path
    else if decide (command = Some "undo_edit") then "Attempting undo"
    else "Processing file"
  else if decide (toolName = "file_manager") then
    let command := command args in
    let path := or_default (path args) "" in
    if decide (command = Some "rename") then "Renaming " +:+ path
    else if decide (command = Some "delete") then "Deleting " +:+ path
    else "Managing file"
  else toolName.

(** The rendered element tree: host elements with their [className],
    the [Loader2] icon component, fragments and text. *)
Inductive Element : Type :=
| Host (tag className : string) (children : list Element)
| Loader2 (className : string)
| Fragment (children : list Element)
| Text (s : string).

Definition isComplete (toolInvocation : ToolInvocation) : JsValue :=
  js_and (JsBool (is_result (state toolInvocation)))
         (default JsUndefined (result toolInvocation)).

Definition ToolCallBadge (toolInvocation : ToolInvocation) : Element :=
  let message := getToolCallMessage toolInvocation in
  let isComplete := isComplete toolInvocation in
  Host "div"
    "inline-flex items-center gap-2 mt-2 px-3 py-1.5 bg-neutral-50 rounded-lg text-xs font-mono border border-neutral-200"
    [ if truthy isComplete then
        Fragment
          [ Host "div" "w-2 h-2 rounded-full bg-emerald-500" [];
            Host "span" "text-neutral-700" [Text message] ]
      else
        Fragment
          [ Loader2 "w-3 h-3 animate-spin text-blue-600";
            Host "span" "text-neutral-700" [Text message] ] ].

(** Observations on a rendered tree, as the component's tests make them:
    [querySelector(".cls")] and the text content. *)
Definition has_class (cls className : string) : bool :=
  bool_decide (cls ∈ String.words className).

Fixpoint query_class (cls : string) (e : Element) : bool :=
  match e with
  | Host _ cn children =>
      has_class cls cn || existsb (query_class cls) children
  | Loader2 cn => has_class cls cn
  | Fragment children => existsb (query_class cls) children
  | Text _ => false
  end.

Fixpoint text_content (e : Element) : string :=
  match e with
  | Host _ _ children | Fragment children =>
      foldr (λ c acc, text_content c +:+ acc) "" children
  | Loader2 _ => ""
  | Text s => s
  end.

Definition shows_green_dot (e : Element) : bool := query_class "bg-emerald-500" e.
Definition shows_spinner (e : Element) : bool := query_class "animate-spin" e.

End Badge.

(** * The virtual file system

The definitions of this module follow sections 3 and 4.1 of the
specification. *)

Module VFS.

(** Modelled from the spec: src/lib/file-system.ts is missing; the error
    kinds of the VirtualFileSystem layer (section 7). *)
Inductive Error : Type :=
| InvalidPath
| NotFound
| AlreadyExists
| PathIsDirectory
| NotDirectory
| CorruptSnapshot.

(** An operation either returns a value or fails with an error. *)
Inductive Result (A : Type) : Type :=
| Ok (a : A)
| Err (e : Error).
Global Arguments Ok {A} a.
Global Arguments Err {A} e.

Global Instance Error_eq_dec : EqDecision Error.
Proof. solve_decision. Defined.

Global Instance Result_eq_dec `{EqDecision A} : EqDecision (Result A).
Proof. solve_decision. Defined.

(** Modelled from the spec: src/lib/file-system.ts is missing; the [kind]
    of a FileNode, "enum {file, directory}". *)
Inductive NodeKind : Type := file | directory.

Global Instance NodeKind_eq_dec : EqDecision NodeKind.
Proof. solve_decision. Defined.

(** Modelled from the spec: src/lib/file-system.ts is missing; FileNode
    (section 3) with its five fields; [content] is "only present for file
    nodes", the timestamps are "informational only". *)
Record FileNode : Type := mkFileNode {
  path : string;
  kind : NodeKind;
  content : option string;
  createdAt : Z;
  updatedAt : Z
}.

Global Instance FileNode_eq_dec : EqDecision FileNode.
Proof. solve_decision. Defined.

(** Modelled from the spec: src/lib/file-system.ts is missing; "A mapping
    from path to FileNode, keys unique, insertion order irrelevant". *)
Abbreviation VirtualFileSystem := (gmap string FileNode).

(** *** Paths *)

(** The pieces of [s] between the occurrences of "/" (JavaScript's
    [s.split("/")]). *)
Fixpoint split_slash (s : string) : list string :=
  match s with
  | "" => [""]
  | String c s' =>
      if Ascii.eqb c "/"%char then "" :: split_slash s'
      else match split_slash s' with
           | [] => [String c ""]
           | x :: xs => String c x :: xs
           end
  end.

(** Modelled from the spec: src/lib/file-system.ts is missing; "collapse
    [./], resolve [../] against the path's own directory chain". [stack]
    holds the directory chain read so far, innermost first; [None] when a
    [..] has nothing to pop, the path "escapes root via unresolvable
    [..]". *)
Fixpoint resolve_dots (stack segs : list string) : option (list string) :=
  match segs with
  | [] => Some (reverse stack)
  | seg :: rest =>
      if decide (seg = "" ∨ seg = ".") then resolve_dots stack rest
      else if decide (seg = "..") then
        match stack with
        | [] => None
        | _ :: stack' => resolve_dots stack' rest
        end
      else resolve_dots (seg :: stack) rest
  end.

Definition segments (p : string) : option (list string) :=
  resolve_dots [] (split_slash p).

Fixpoint join_segments (segs : list string) : string :=
  match segs with
  | [] => ""
  | seg :: rest => "/" +:+ seg +:+ join_segments rest
  end.

(** Modelled from the spec: src/lib/file-system.ts is missing; "ensure
    leading [/], strip trailing [/] except for root". *)
Definition render (segs : list string) : string :=
  match segs with
  | [] => "/"
  | _ => join_segments segs
  end.

(** Modelled from the spec: src/lib/file-system.ts is missing; path
    normalization (section 4.1), failing with [InvalidPath] on a path that
    escapes root. *)
Definition normalize (p : string) : Result string :=
  match segments p with
  | Some segs => Ok (render segs)
  | None => Err InvalidPath
  end.

(** Modelled from the spec: src/lib/file-system.ts is missing; the
    ancestor directories of a normalized path, outermost (the root) first. *)
Definition ancestors (segs : list string) : list string :=
  (λ i, render (take i segs)) <$> seq 0 (length segs).

Definition ancestors_of (p : string) : list string :=
  match segments p with
  | Some segs => ancestors segs
  | None => []
  end.

(** A string without "/". *)
Fixpoint slash_free (s : string) : Prop :=
  match s with
  | "" => True
  | String c s' => c ≠ "/"%char ∧ slash_free s'
  end.

(** A segment of a normalized path: not empty, not [.] or [..], and
    without "/". *)
Definition clean (seg : string) : Prop :=
  seg ≠ "" ∧ seg ≠ "." ∧ seg ≠ ".." ∧ slash_free seg.

(** *** Observations *)

Definition lookup_path (fs : VirtualFileSystem) (p : string) : option FileNode :=
  match normalize p with
  | Ok q => fs !! q
  | Err _ => None
  end.

(** Modelled from the spec: src/lib/file-system.ts is missing;
    "[exists(path)]: boolean, never fails". *)
Definition exists_ (fs : VirtualFileSystem) (p : string) : bool :=
  bool_decide (is_Some (lookup_path fs p)).

Definition is_directory (fs : VirtualFileSystem) (p : string) : bool :=
  match lookup_path fs p with
  | Some n => bool_decide (kind n = directory)
  | None => false
  end.

Definition is_file (fs : VirtualFileSystem) (p : string) : bool :=
  match lookup_path fs p with
  | Some n => bool_decide (kind n = file)
  | None => false
  end.

(** Modelled from the spec: src/lib/file-system.ts is missing;
    "[read(path)]: returns content; fails with [NotFound] if no file node
    exists at that path; fails with [PathIsDirectory] if the path is a
    directory". *)
Definition read (fs : VirtualFileSystem) (p : string) : Result string :=
  match normalize p with
  | Err e => Err e
  | Ok q =>
      match fs !! q with
      | None => Err NotFound
      | Some n =>
          match kind n with
          | directory => Err PathIsDirectory
          | file => Ok (default "" (content n))
          end
      end
  end.

(** *** Mutations

The operations read the clock for the timestamps; it is passed as
[now]. *)

Definition dir_node (now : Z) (p : string) : FileNode :=
  {| path := p; kind := directory; content := None;
     createdAt := now; updatedAt := now |}.

Definition file_node (created now : Z) (p c : string) : FileNode :=
  {| path := p; kind := file; content := Some c;
     createdAt := created; updatedAt := now |}.

(** The node [n] stored under the path [p]. *)
Definition with_path (p : string) (n : FileNode) : FileNode :=
  {| path := p; kind := kind n; content := content n;
     createdAt := createdAt n; updatedAt := updatedAt n |}.

(** A directory node is added at [p] when nothing is there. *)
Definition ensure_dir (now : Z) (fs : VirtualFileSystem) (p : string)
  : VirtualFileSystem :=
  match fs !! p with
  | Some _ => fs
  | None => <[p := dir_node now p]> fs
  end.

(** Modelled from the spec: src/lib/file-system.ts is missing; "creates
    all missing ancestor directories". *)
Definition ensure_ancestors (now : Z) (segs : list string)
    (fs : VirtualFileSystem) : VirtualFileSystem :=
  foldl (ensure_dir now) fs (ancestors segs).

(** Modelled from the spec: src/lib/file-system.ts is missing;
    "[create(path, content)]: fails with [InvalidPath] if path normalizes
    to empty or escapes root via unresolvable [..]; creates all missing
    ancestor directories; overwrites an existing file at that path if
    present; fails with [PathIsDirectory] if the target already exists as
    a directory". A path "normalizes to empty" when no segment is left,
    that is, when it denotes the root. *)
Definition create (now : Z) (fs : VirtualFileSystem) (p c : string)
  : Result VirtualFileSystem :=
  match segments p with
  | None | Some [] => Err InvalidPath
  | Some segs =>
      let q := render segs in
      match fs !! q with
      | Some n =>
          match kind n with
          | directory => Err PathIsDirectory
          | file =>
              Ok (<[q := file_node (createdAt n) now q c]>
                    (ensure_ancestors now segs fs))
          end
      | None =>
          Ok (<[q := file_node now now q c]> (ensure_ancestors now segs fs))
      end
  end.

(** [strip_prefix p s] is the rest of [s] after its prefix [p]. *)
Fixpoint strip_prefix (p s : string) : option string :=
  match p, s with
  | "", _ => Some s
  | String a p', String b s' =>
      if Ascii.eqb a b then strip_prefix p' s' else None
  | String _ _, "" => None
  end.

(** The prefix that the paths below the directory [d] share: [d/], and
    [/] for the root. *)
Definition dir_prefix (d : string) : string :=
  if decide (d = "/") then "/" else d +:+ "/".

(** The path [rest] below the directory [d]. *)
Definition below (d rest : string) : string := dir_prefix d +:+ rest.

(** What is left of the path [k] after the prefix of the directory [d],
    when [k] lies below [d]. *)
Definition rest_below (d k : string) : option string :=
  match strip_prefix (dir_prefix d) k with
  | Some rest => if decide (rest = "") then None else Some rest
  | None => None
  end.

(** [nested a b]: the path [b] is [a] or lies below it. *)
Definition nested (a b : string) : bool :=
  bool_decide (b = a ∨ is_Some (rest_below a b)).

(** Modelled from the spec: src/lib/file-system.ts is missing; "every
    descendant path is rewritten by substituting the [oldPath] prefix with
    [newPath]". [o] and [n] are normalized; the descendants of [o] are the
    paths [below o rest]. *)
Definition move_key (o n k : string) : option string :=
  if decide (k = o) then Some n
  else below n <$> rest_below o k.

Definition moved_entry (o n : string) (e : string * FileNode)
  : option (string * FileNode) :=
  (λ k', (k', with_path k' e.2)) <$> move_key o n e.1.

(** The file system with [o] and its descendants moved to [n] and below
    it; all other nodes stay. *)
Definition relocate (o n : string) (fs : VirtualFileSystem) : VirtualFileSystem :=
  list_to_map (omap (moved_entry o n) (map_to_list fs))
    ∪ filter (λ e, move_key o n e.1 = None) fs.

(** Modelled from the spec: src/lib/file-system.ts is missing;
    "[rename(oldPath, newPath)]: fails with [NotFound] if [oldPath]
    absent; fails with [AlreadyExists] if [newPath] already occupied; if
    [oldPath] is a directory, every descendant path is rewritten". A path
    that does not normalize names no node, so it is absent and not
    occupied; as a new path it is an [InvalidPath]. The missing ancestors
    of the new path are created ("rename with auto-parent creation",
    CLAUDE.md). *)
Definition rename (now : Z) (fs : VirtualFileSystem) (oldPath newPath : string)
  : Result VirtualFileSystem :=
  match lookup_path fs oldPath with
  | None => Err NotFound
  | Some _ =>
      match lookup_path fs newPath with
      | Some _ => Err AlreadyExists
      | None =>
          match normalize oldPath, segments newPath with
          | Ok o, Some nsegs =>
              Ok (ensure_ancestors now nsegs (relocate o (render nsegs) fs))
          | _, _ => Err InvalidPath
          end
      end
  end.

(** Modelled from the spec: src/lib/file-system.ts is missing; "this
    must be atomic with respect to readers (no partial-rename observable
    state)". The file system holds one mapping at a time and an operation
    has no suspension point (section 5): when it succeeds its result
    replaces the mapping in one step, when it fails the mapping stays.
    [observable fs r] lists the mappings that a reader can see around an
    operation on [fs] with the outcome [r]. *)
Definition observable (fs : VirtualFileSystem) (r : Result VirtualFileSystem)
  : list VirtualFileSystem :=
  match r with
  | Ok fs' => [fs; fs']
  | Err _ => [fs]
  end.

(** A partial rename of [o] to [n], seen in the mapping [st] by a
    reader who knew [fs]: a node at or below [o] has left its place
    while the new place of another one is still empty. *)
Definition partial_rename (fs st : VirtualFileSystem) (o n : string) : Prop :=
  (∃ k, nested o k = true ∧ is_Some (fs !! k) ∧ st !! k = None) ∧
  (∃ k k', is_Some (fs !! k) ∧ move_key o n k = Some k' ∧ st !! k' = None).

(** *** Snapshots *)

(** Modelled from the spec: src/lib/file-system.ts is missing;
    "[serialize()]: produces an ordered sequence of (path, node) pairs". *)
Definition serialize (fs : VirtualFileSystem) : list (string * FileNode) :=
  map_to_list fs.

(** Modelled from the spec: src/lib/file-system.ts is missing; the
    ancestor-directory invariant, "every file node's path's ancestor
    directories exist as directory nodes in the same mapping". *)
Definition ancestors_ok (fs : VirtualFileSystem) (k : string) (n : FileNode) : bool :=
  match kind n with
  | directory => true
  | file =>
      match segments k with
      | Some segs => forallb (is_directory fs) (ancestors segs)
      | None => false
      end
  end.

Definition ancestor_invariant (fs : VirtualFileSystem) : bool :=
  forallb (λ e, ancestors_ok fs e.1 e.2) (map_to_list fs).

(** Every pair of the snapshot is stored under its normalized path. *)
Fixpoint hydrate (snapshot : list (string * FileNode))
  : Result VirtualFileSystem :=
  match snapshot with
  | [] => Ok ∅
  | (p, n) :: rest =>
      match normalize p, hydrate rest with
      | Ok q, Ok fs =>
          Ok (<[q := with_path q n]> fs)
      | _, _ => Err CorruptSnapshot
      end
  end.

(** Modelled from the spec: src/lib/file-system.ts is missing;
    "[deserialize(snapshot)]: ... fails with [CorruptSnapshot] if any path
    fails normalization or the ancestor-directory invariant cannot be
    satisfied". *)
Definition deserialize (snapshot : list (string * FileNode))
  : Result VirtualFileSystem :=
  match hydrate snapshot with
  | Ok fs => if ancestor_invariant fs then Ok fs else Err CorruptSnapshot
  | Err e => Err e
  end.

(** Modelled from the spec: src/lib/file-system.ts is missing; the
    invariants of a VirtualFileSystem (section 3): every key is a
    normalized path, and it is the path of its node; every file node's
    ancestors are directory nodes. *)
Definition well_formed (fs : VirtualFileSystem) : bool :=
  forallb (λ e, bool_decide (normalize e.1 = Ok e.1)
                && bool_decide (path e.2 = e.1)) (map_to_list fs)
  && ancestor_invariant fs.

End VFS.

(** * Import resolution

This module follows section 4.3 of the specification, with the alias,
the extensions and the CDN addresses that CLAUDE.md gives. *)

Module Resolver.
  Import VFS.

(** Modelled from the spec: the resolver of
    src/lib/transform/jsx-transformer.ts is missing; the [kind] of an
    ImportSpecifier resolution record, "enum {local-absolute, aliased,
    relative, external, unresolved}". *)
Inductive ResolutionKind : Type :=
| local_absolute
| aliased
| relative
| external
| unresolved.

Global Instance ResolutionKind_eq_dec : EqDecision ResolutionKind.
Proof. solve_decision. Defined.

(** Modelled from the spec: the resolver of
    src/lib/transform/jsx-transformer.ts is missing; the resolution record
    of section 3; [resolvedTarget] is a path of the file system, a URL, or
    empty. *)
Record Resolution : Type := mkResolution {
  specifier : string;
  kind : ResolutionKind;
  resolvedTarget : string
}.

Global Instance Resolution_eq_dec : EqDecision Resolution.
Proof. solve_decision. Defined.

(** "tries .jsx, .tsx, .js, .ts" (CLAUDE.md). *)
Definition extensions : list string := [".jsx"; ".tsx"; ".js"; ".ts"].

(** "[@/components/Button] -> [/components/Button.jsx]" (CLAUDE.md): the
    alias prefix maps to the project root. *)
Definition alias_prefix : string := "@/".
Definition project_root : string := "/".

(** "[lucide-react] -> [https://esm.sh/lucide-react]"; "React and
    React-DOM always resolve to [esm.sh/react@19] and
    [esm.sh/react-dom@19]" (CLAUDE.md). *)
Definition cdn_base : string := "https://esm.sh/".
Definition pinned_react : string := "https://esm.sh/react@19".
Definition pinned_react_dom : string := "https://esm.sh/react-dom@19".

Definition starts_with (p s : string) : bool :=
  bool_decide (is_Some (strip_prefix p s)).

Definition ends_with (sfx s : string) : bool :=
  starts_with (String.rev sfx) (String.rev s).

Definition has_extension (s : string) : bool :=
  existsb (λ e, ends_with e s) extensions.

Definition is_url (s : string) : bool :=
  starts_with "http://" s || starts_with "https://" s.

(** The normalized path of [p] when a file node is stored there. *)
Definition existing_file (fs : VirtualFileSystem) (p : string) : option string :=
  match normalize p with
  | Ok q =>
      match fs !! q with
      | Some n => if decide (VFS.kind n = file) then Some q else None
      | None => None
      end
  | Err _ => None
  end.

Fixpoint first_existing (fs : VirtualFileSystem) (candidates : list string)
  : option string :=
  match candidates with
  | [] => None
  | c :: rest =>
      match existing_file fs c with
      | Some q => Some q
      | None => first_existing fs rest
      end
  end.

(** Modelled from the spec: the resolver of
    src/lib/transform/jsx-transformer.ts is missing; "looked up directly
    in the VirtualFileSystem; if missing, probe the same path with each
    supported source extension in a fixed priority list ... first existing
    file wins; if the unsuffixed specifier already has a recognized
    extension, skip probing entirely". *)
Definition probe (fs : VirtualFileSystem) (p : string) : option string :=
  match existing_file fs p with
  | Some q => Some q
  | None =>
      if has_extension p then None
      else first_existing fs ((λ e, p +:+ e) <$> extensions)
  end.

(** The directory of the importing file. *)
Definition dirname (importerPath : string) : string :=
  match segments importerPath with
  | Some segs => render (removelast segs)
  | None => "/"
  end.

Definition found (specifier : string) (k : ResolutionKind) (o : option string)
  : Resolution :=
  match o with
  | Some target => mkResolution specifier k target
  | None => mkResolution specifier unresolved ""
  end.

(** Modelled from the spec: the resolver of
    src/lib/transform/jsx-transformer.ts is missing; the external rule of
    section 4.3; "React and its DOM renderer are pinned to a fixed,
    explicitly-versioned URL", any other package name is "mapped to a
    constructed CDN URL using the package name (and version/subpath if
    present in the specifier)". *)
Definition external_url (specifier : string) : string :=
  if decide (specifier = "react") then pinned_react
  else if decide (specifier = "react-dom") then pinned_react_dom
  else cdn_base +:+ specifier.

(** Modelled from the spec: the resolver of
    src/lib/transform/jsx-transformer.ts is missing; "[resolve(specifier,
    importerPath, fsSnapshot)]", the rules of section 4.3 in their order,
    first match wins. A specifier that is already a network URL stays as
    it is. *)
Definition resolve (specifier importerPath : string) (fs : VirtualFileSystem)
  : Resolution :=
  if starts_with "/" specifier then
    found specifier local_absolute (probe fs specifier)
  else
    match strip_prefix alias_prefix specifier with
    | Some rest => found specifier aliased (probe fs (project_root +:+ rest))
    | None =>
        if starts_with "./" specifier || starts_with "../" specifier then
          found specifier relative
            (probe fs (dirname importerPath +:+ "/" +:+ specifier))
        else if is_url specifier then
          mkResolution specifier external specifier
        else
          mkResolution specifier external (external_url specifier)
    end.

(** The resolution names a file of the project. *)
Definition is_local (r : Resolution) : bool :=
  match kind r with
  | local_absolute | aliased | relative => true
  | external | unresolved => false
  end.

End Resolver.

(** * Module graph assembly

This module follows section 4.4 of the specification.  The Source
Transformer (Babel Standalone in the repository) is a parameter of the
build. *)

Module Assembler.
  Import VFS Resolver.

(** Modelled from the spec: the Source Transformer of
    src/lib/transform/jsx-transformer.ts is missing; its contract
    (section 4.2) is "[transform(path, rawSource)] -> { executableSource,
    importSpecifiers[], extractedStyleText? }", failing with
    [SyntaxError]. *)
Record TransformOutput : Type := mkTransformOutput {
  executableSource : string;
  importSpecifiers : list string;
  extractedStyleText : option string
}.

Inductive TransformResult : Type :=
| Transformed (out : TransformOutput)
| SyntaxError (message : string).

(** Modelled from the spec: the assembler of
    src/lib/transform/jsx-transformer.ts is missing; a loadable reference
    is "an opaque, uniquely-addressable reference to the transformed
    executable code"; [Blob i] is the [i]-th code blob of the build, [Url]
    an external address, [Stub] the empty module of a placeholder or a
    style file. *)
Inductive LoadableReference : Type :=
| Blob (id : nat)
| Url (url : string)
| Stub.

Global Instance LoadableReference_eq_dec : EqDecision LoadableReference.
Proof. solve_decision. Defined.

(** Modelled from the spec: the assembler of
    src/lib/transform/jsx-transformer.ts is missing; a module registry
    entry, "specifier -> { loadableReference, sourcePath, styleText? }". *)
Record RegistryEntry : Type := mkRegistryEntry {
  loadableReference : LoadableReference;
  sourcePath : string;
  styleText : option string
}.

Global Instance RegistryEntry_eq_dec : EqDecision RegistryEntry.
Proof. solve_decision. Defined.

Definition placeholder : RegistryEntry :=
  {| loadableReference := Stub; sourcePath := ""; styleText := None |}.

Definition external_entry (url : string) : RegistryEntry :=
  {| loadableReference := Url url; sourcePath := url; styleText := None |}.

(** Modelled from the spec: the assembler of
    src/lib/transform/jsx-transformer.ts is missing; a non-fatal
    diagnostic, "surfacing the missing-module condition": the specifier
    that resolved to nothing and the file that imports it. *)
Record Diagnostic : Type := mkDiagnostic {
  missingSpecifier : string;
  importer : string
}.

Global Instance Diagnostic_eq_dec : EqDecision Diagnostic.
Proof. solve_decision. Defined.

(** Modelled from the spec: the assembler of
    src/lib/transform/jsx-transformer.ts is missing; "[BuildFailed]
    carrying the originating path and message". *)
Inductive BuildError : Type :=
| BuildFailed (path message : string).

(** Modelled from the spec: the assembler of
    src/lib/transform/jsx-transformer.ts is missing; the state of one
    build: the visited-set "keyed by normalized path", the
    transformation results "cached per resolved path", the code blobs
    that the loadable references of the registry address, each with the
    path of the file whose transformed code it holds, the registry, the
    style blocks "in first-discovery order", the diagnostics, and the
    paths handed to the Transformer, in order. *)
Record BuildState : Type := mkBuildState {
  visited : gset string;
  cache : gmap string (LoadableReference * option string);
  blobs : list (string * string);
  registry : gmap string RegistryEntry;
  styles : list string;
  diagnostics : list Diagnostic;
  transformed : list string
}.

Definition initial : BuildState :=
  {| visited := ∅; cache := ∅; blobs := []; registry := ∅;
     styles := []; diagnostics := []; transformed := [] |}.

(** [p] enters the visited-set and is handed to the Transformer. *)
Definition enter (p : string) (st : BuildState) : BuildState :=
  {| visited := {[p]} ∪ visited st; cache := cache st; blobs := blobs st;
     registry := registry st; styles := styles st;
     diagnostics := diagnostics st;
     transformed := transformed st ++ [p] |}.

(** The transformed code of [p] becomes a new blob. *)
Definition add_module (p code : string) (st : BuildState) : BuildState :=
  {| visited := visited st;
     cache := <[p := (Blob (length (blobs st)), None)]> (cache st);
     blobs := blobs st ++ [(p, code)];
     registry := registry st; styles := styles st;
     diagnostics := diagnostics st; transformed := transformed st |}.

(** The text of the style file [p] joins the style blocks. *)
Definition add_style (p css : string) (st : BuildState) : BuildState :=
  {| visited := visited st;
     cache := <[p := (Stub, Some css)]> (cache st);
     blobs := blobs st; registry := registry st;
     styles := styles st ++ [css];
     diagnostics := diagnostics st; transformed := transformed st |}.

(** A registry entry is installed under the specifier [s]. *)
Definition install (s : string) (e : RegistryEntry) (st : BuildState)
  : BuildState :=
  {| visited := visited st; cache := cache st; blobs := blobs st;
     registry := <[s := e]> (registry st); styles := styles st;
     diagnostics := diagnostics st; transformed := transformed st |}.

Definition report (d : Diagnostic) (st : BuildState) : BuildState :=
  {| visited := visited st; cache := cache st; blobs := blobs st;
     registry := registry st; styles := styles st;
     diagnostics := diagnostics st ++ [d]; transformed := transformed st |}.

(** The registry entry of the file [t], from the cached result. *)
Definition entry_of (st : BuildState) (t : string) : RegistryEntry :=
  match cache st !! t with
  | Some (ref, css) =>
      {| loadableReference := ref; sourcePath := t; styleText := css |}
  | None => {| loadableReference := Stub; sourcePath := t; styleText := None |}
  end.

(** The outcome of a walk: [None] when the depth bound is exhausted. *)
Abbreviation Walk := (option (BuildError + BuildState)).

Section Build.
  (** The Source Transformer. *)
  Variable transform : string → string → TransformResult.
  Variable fs : VirtualFileSystem.

(** The import specifiers of the file [p] that the walk follows: none
    for a style file, for which "no executable module is produced". *)
Definition imports_of (p : string) : list string :=
  match fs !! p with
  | Some n =>
      match transform p (default "" (content n)) with
      | Transformed out =>
          match extractedStyleText out with
          | Some _ => []
          | None => importSpecifiers out
          end
      | SyntaxError _ => []
      end
  | None => []
  end.

(** Modelled from the spec: the assembler of
    src/lib/transform/jsx-transformer.ts is missing; the treatment of
    the import specifiers of the visited file [p]: each is resolved; a
    local target is visited unless it is in the visited-set ("a cycle
    simply stops expanding at the second visit"), external targets are
    leaves and an unresolved specifier is reported in a diagnostic; the
    registry entry of a target is installed "keyed by the specifier
    string as the importer wrote it". [visit] is the walk of a target. *)
Fixpoint follow (visit : string → BuildState → Walk) (p : string)
    (specs : list string) (st : BuildState) : Walk :=
  match specs with
  | [] => Some (inr st)
  | s :: rest =>
      let r := resolve s p fs in
      match kind r with
      | unresolved =>
          follow visit p rest (report (mkDiagnostic s p) st)
      | external =>
          follow visit p rest
            (install s (external_entry (resolvedTarget r)) st)
      | local_absolute | aliased | relative =>
          let t := resolvedTarget r in
          let walked :=
            if decide (t ∈ visited st) then Some (inr st) else visit t st in
          match walked with
          | Some (inr st') =>
              follow visit p rest (install s (entry_of st' t) st')
          | failure => failure
          end
      end
  end.

(** Modelled from the spec: the assembler of
    src/lib/transform/jsx-transformer.ts is missing; the reachability
    walk of section 4.4 from the file [p]: the file is marked,
    transformed once, and its imports are followed; a [SyntaxError]
    fails the whole build. [fuel] bounds the depth of the walk. *)
Fixpoint visit (fuel : nat) (p : string) (st : BuildState) : Walk :=
  match fuel with
  | 0 => None
  | S fuel' =>
      match fs !! p with
      | None => Some (inl (BuildFailed p "file not found"))
      | Some n =>
          match VFS.kind n with
          | directory => Some (inl (BuildFailed p "path is a directory"))
          | file =>
              let st := enter p st in
              match transform p (default "" (content n)) with
              | SyntaxError message => Some (inl (BuildFailed p message))
              | Transformed out =>
                  match extractedStyleText out with
                  | Some css => Some (inr (add_style p css st))
                  | None =>
                      follow (visit fuel') p (importSpecifiers out)
                        (add_module p (executableSource out) st)
                  end
              end
          end
      end
  end.

(** Modelled from the spec: the assembler of
    src/lib/transform/jsx-transformer.ts is missing; "produce a
    placeholder resolution rather than failing the whole graph": every
    specifier that a diagnostic reports gets the placeholder as its
    registry entry, once the walk is over. *)
Definition install_placeholders (st : BuildState) : BuildState :=
  foldr (λ d, install (missingSpecifier d) placeholder) st (diagnostics st).

(** Modelled from the spec: the assembler of
    src/lib/transform/jsx-transformer.ts is missing; the whole walk
    "starting at [entryPath]".  Its depth is bounded by the number of
    nodes of the file system; the entry's own registry entry is keyed
    by its normalized path, the [entrySpecifier] of the result. *)
Definition build_state (entryPath : string) : Walk :=
  match normalize entryPath with
  | Err _ => Some (inl (BuildFailed entryPath "invalid path"))
  | Ok e =>
      match visit (S (size fs)) e initial with
      | Some (inr st) =>
          Some (inr (install_placeholders (install e (entry_of st e) st)))
      | failure => failure
      end
  end.

(** Modelled from the spec: the assembler of
    src/lib/transform/jsx-transformer.ts is missing; the result of a
    build, "{ registry, entrySpecifier, diagnostics[] }", with the
    aggregated style text that the sandbox adapter receives (section 6). *)
Record BuildResult : Type := mkBuildResult {
  result_registry : gmap string RegistryEntry;
  entrySpecifier : string;
  result_diagnostics : list Diagnostic;
  aggregatedStyleText : list string
}.

(** Modelled from the spec: the assembler of
    src/lib/transform/jsx-transformer.ts is missing; "[build(entryPath,
    fsSnapshot)]". *)
Definition build (entryPath : string) : BuildError + BuildResult :=
  match build_state entryPath with
  | Some (inr st) =>
      inr {| result_registry := registry st;
             entrySpecifier :=
               match normalize entryPath with
               | Ok e => e
               | Err _ => entryPath
               end;
             result_diagnostics := diagnostics st;
             aggregatedStyleText := styles st |}
  | Some (inl e) => inl e
  | None => inl (BuildFailed entryPath "internal invariant violation")
  end.

(** The local files that the importer [p] refers to. *)
Definition imports_file (p t : string) : Prop :=
  ∃ s, s ∈ imports_of p ∧ is_local (resolve s p fs) = true
       ∧ resolvedTarget (resolve s p fs) = t.

(** The files reachable from the entry [e] along imports. *)
Inductive reachable (e : string) : string → Prop :=
| reachable_entry : reachable e e
| reachable_import p t :
    reachable e p → imports_file p t → reachable e t.

End Build.

(** *** A Transformer for the scenarios

It leaves the source as it is and collects the specifier of every
[from '...'] and [import '...'] clause; a file whose path ends in
[.css] is a style file. *)

Fixpoint take_until (c : ascii) (s : string) : option string :=
  match s with
  | "" => None
  | String a s' =>
      if Ascii.eqb a c then Some "" else String a <$> take_until c s'
  end.

Fixpoint scan_imports (s : string) : list string :=
  match s with
  | "" => []
  | String _ s' =>
      let here :=
        match strip_prefix "from '" s with
        | Some rest => take_until "'" rest
        | None =>
            match strip_prefix "import '" s with
            | Some rest => take_until "'" rest
            | None => None
            end
        end in
      option_list here ++ scan_imports s'
  end.

Definition scan_transform (path rawSource : string) : TransformResult :=
  if ends_with ".css" path then
    Transformed {| executableSource := ""; importSpecifiers := [];
                   extractedStyleText := Some rawSource |}
  else
    Transformed {| executableSource := rawSource;
                   importSpecifiers := remove_dups (scan_imports rawSource);
                   extractedStyleText := None |}.



End Assembler.

(** * The invariants of the walk *)

Module WalkSpec.
  Import VFS Resolver Assembler.

Section Spec.
  Variable transform : string → string → TransformResult.
  Variable fs : VirtualFileSystem.
  (** The normalized entry path. *)
  Variable e : string.

(** The importer [q] has dealt with its specifier [s]. *)
Definition settled (st : BuildState) (q s : string) : Prop :=
  match kind (resolve s q fs) with
  | unresolved => mkDiagnostic s q ∈ diagnostics st
  | external => is_Some (registry st !! s)
  | local_absolute | aliased | relative =>
      is_Some (registry st !! s) ∧
      resolvedTarget (resolve s q fs) ∈ visited st
  end.

Definition complete (st : BuildState) (q : string) : Prop :=
  ∀ s, s ∈ imports_of transform fs q → settled st q s.

(** The entry [ent] is the one that the importer [q] installs for
    its specifier [s]. *)
Definition justified (st : BuildState) (q s : string) (ent : RegistryEntry)
  : Prop :=
  match kind (resolve s q fs) with
  | unresolved => False
  | external => ent = external_entry (resolvedTarget (resolve s q fs))
  | local_absolute | aliased | relative =>
      is_Some (cache st !! resolvedTarget (resolve s q fs)) ∧
      ent = entry_of st (resolvedTarget (resolve s q fs))
  end.

(** The cached result [x] of [t]: [t] is a file node, and [x] is what
    the Transformer gives for it, the style text of a style file, and
    else a reference to the blob that holds its executable source. *)
Definition cached_ok (st : BuildState) (t : string)
    (x : LoadableReference * option string) : Prop :=
  ∃ n out, fs !! t = Some n ∧ VFS.kind n = file ∧
    transform t (default "" (content n)) = Transformed out ∧
    match extractedStyleText out with
    | Some css => x = (Stub, Some css)
    | None =>
        ∃ i, x = (Blob i, None) ∧
             blobs st !! i = Some (t, executableSource out)
    end.

(** The diagnostic [d] reports a specifier of a visited file that
    resolves to nothing. *)
Definition diagnostic_ok (st : BuildState) (d : Diagnostic) : Prop :=
  importer d ∈ visited st ∧
  missingSpecifier d ∈ imports_of transform fs (importer d) ∧
  kind (resolve (missingSpecifier d) (importer d) fs) = unresolved.

(** What holds of the state between two steps of the walk. *)
Record Inv (st : BuildState) : Prop := mkInv {
  inv_files : ∀ q, q ∈ visited st → is_Some (fs !! q);
  inv_trace : NoDup (transformed st);
  inv_trace_visited : ∀ q, q ∈ transformed st ↔ q ∈ visited st;
  inv_reachable : ∀ q, q ∈ visited st → reachable transform fs e q;
  inv_cache : ∀ q, is_Some (cache st !! q) ↔ q ∈ visited st;
  inv_registry : ∀ s ent, registry st !! s = Some ent →
    ∃ q, q ∈ visited st ∧ s ∈ imports_of transform fs q ∧ justified st q s ent;
  inv_cached : ∀ t x, cache st !! t = Some x → cached_ok st t x;
  inv_blobs : ∀ i t code, blobs st !! i = Some (t, code) →
    cache st !! t = Some (Blob i, None);
  inv_diagnostics : ∀ d, d ∈ diagnostics st → diagnostic_ok st d
}.

(** The state [st'] extends [st]. *)
Record Ext (st st' : BuildState) : Prop := mkExt {
  ext_visited : visited st ⊆ visited st';
  ext_diagnostics : ∀ d, d ∈ diagnostics st → d ∈ diagnostics st';
  ext_registry : ∀ s, is_Some (registry st !! s) → is_Some (registry st' !! s);
  ext_cache : cache st ⊆ cache st'
}.

(** The only failures: the file [q] is missing, a directory, or the
    Transformer rejects it. *)
Definition fails_at (q message : string) : Prop :=
  reachable transform fs e q ∧
  match fs !! q with
  | Some n =>
      VFS.kind n = directory ∨
      transform q (default "" (content n)) = SyntaxError message
  | None => True
  end.

Definition walk_post (st : BuildState) (extra : BuildState → Prop) (w : Walk)
  : Prop :=
  match w with
  | None => False
  | Some (inl (BuildFailed q message)) => fails_at q message
  | Some (inr st') =>
      Inv st' ∧ Ext st st' ∧
      (∀ q, q ∈ visited st' → q ∉ visited st → complete st' q) ∧
      extra st'
  end.
End Spec.
End WalkSpec.

(** * Scenarios

The concrete inputs of the examples: the component's tests and the
scenarios of section 8 of the specification. *)

Module Scenarios.
  Import VFS Resolver Assembler Badge.

(** The file system obtained from the empty one by creating the given
    files in order. *)
Definition fs_of (files : list (string * string)) : VirtualFileSystem :=
  foldl (λ fs f, match create 0 fs f.1 f.2 with
                 | Ok fs' => fs'
                 | Err _ => fs
                 end) ∅ files.

Definition fs_old : VirtualFileSystem := fs_of [("/old/x.jsx", "x")].

Definition fs_app : VirtualFileSystem :=
  fs_of [("/App.jsx", "export default function App(){return null}")].

Definition fs_missing : VirtualFileSystem :=
  fs_of [("/App.jsx", "import X from './missing'")].

Definition fs_cycle : VirtualFileSystem :=
  fs_of [("/A.jsx", "import B from './B'");
         ("/B.jsx", "import A from './A'")].

Definition fs_cycle_absolute : VirtualFileSystem :=
  fs_of [("/A.jsx", "import B from '/B.jsx'");
         ("/B.jsx", "import A from '/A.jsx'")].

(** The specifier [./x] resolves to nothing from [/App.jsx] and to
    [/sub/x.jsx] from [/sub/b.jsx]. *)
Definition fs_shadowed : VirtualFileSystem :=
  fs_of [("/App.jsx", "import b from './sub/b'; import x from './x'");
         ("/sub/b.jsx", "import x from './x'");
         ("/sub/x.jsx", "export default 1")].


Definition invocation (name : string) (command path : option string)
    (st : State) (res : option JsValue) : ToolInvocation :=
  {| toolCallId := "1"; toolName := name;
     args := {| command := command; path := path; new_path := None;
                other := [] |};
     state := st; result := res |}.

End Scenarios.

(** * Theorems *)

(** ** The tool-call badge *)

Section BadgeFacts.
  Import Badge.

Lemma or_default_empty (a : option string) : or_default a "" = default "" a.
Proof. destruct a as [[|c s]|]; reflexivity. Qed.

Lemma app_empty_r (s : string) : s +:+ "" = s.
Proof.
  induction s as [|a s IH]; [reflexivity|].
  change (String a s +:+ "") with (String a (s +:+ "")). by rewrite IH.
Qed.

End BadgeFacts.

(** ** Strings *)

Section StringFacts.

Lemma app_cons (a : ascii) (s t : string) :
  String a s +:+ t = String a (s +:+ t).
Proof. reflexivity. Qed.

Lemma app_empty_l (s : string) : "" +:+ s = s.
Proof. reflexivity. Qed.

Lemma app_assoc_str (s t u : string) : (s +:+ t) +:+ u = s +:+ (t +:+ u).
Proof.
  induction s as [|a s IH]; [reflexivity|]. by rewrite !app_cons, IH.
Qed.

Lemma length_app_str (s t : string) :
  String.length (s +:+ t) = String.length s + String.length t.
Proof.
  induction s as [|a s IH]; [reflexivity|].
  rewrite app_cons. simpl. by rewrite IH.
Qed.

Lemma strip_prefix_app (p r : string) : VFS.strip_prefix p (p +:+ r) = Some r.
Proof.
  induction p as [|a p IH]; [reflexivity|].
  rewrite app_cons. simpl. by rewrite Ascii.eqb_refl.
Qed.

Lemma strip_prefix_Some (p s r : string) :
  VFS.strip_prefix p s = Some r ↔ s = p +:+ r.
Proof.
  split; [|intros ->; apply strip_prefix_app].
  revert s. induction p as [|a p IH]; intros s; simpl.
  - by intros [= ->].
  - destruct s as [|b s]; [done|].
    destruct (Ascii.eqb a b) eqn:E; [|done].
    apply Ascii.eqb_eq in E as ->. intros ->%IH. by rewrite app_cons.
Qed.

End StringFacts.

(** ** Paths *)

Section PathFacts.
  Import VFS.

Lemma split_slash_not_nil (s : string) : split_slash s ≠ [].
Proof.
  induction s as [|c s IH]; simpl; [done|].
  destruct (Ascii.eqb c "/"); [done|]. by destruct (split_slash s).
Qed.

Lemma split_slash_slash_free (s : string) : Forall slash_free (split_slash s).
Proof.
  induction s as [|c s IH]; simpl.
  - by repeat constructor.
  - destruct (Ascii.eqb c "/") eqn:E.
    + by constructor.
    + apply Ascii.eqb_neq in E.
      destruct (split_slash s) as [|x xs]; [by repeat constructor|].
      inversion_clear IH. by repeat constructor.
Qed.

Lemma split_slash_app (s t : string) :
  slash_free s →
  split_slash (s +:+ t) =
    match split_slash t with
    | x :: xs => (s +:+ x) :: xs
    | [] => [s]
    end.
Proof.
  induction s as [|c s IH]; intros Hs.
  - rewrite app_empty_l. destruct (split_slash t) eqn:E; [|done].
    by apply split_slash_not_nil in E.
  - destruct Hs as [Hc Hs]. rewrite app_cons. simpl.
    apply Ascii.eqb_neq in Hc. rewrite Hc, (IH Hs).
    by destruct (split_slash t).
Qed.

Lemma split_slash_join (segs : list string) :
  Forall slash_free segs → split_slash (join_segments segs) = "" :: segs.
Proof.
  induction 1 as [|seg rest Hseg _ IH]; [done|].
  change (join_segments (seg :: rest))
    with (String "/" ("" +:+ seg +:+ join_segments rest)).
  change (split_slash (String "/" ?s)) with ("" :: split_slash s).
  by rewrite app_empty_l, split_slash_app, IH, app_empty_r.
Qed.

Lemma resolve_dots_clean_in (stack segs : list string) :
  Forall clean segs → resolve_dots stack segs = Some (reverse stack ++ segs).
Proof.
  intros H. revert stack.
  induction H as [|seg rest (H1 & H2 & H3 & _) _ IH]; intros stack; simpl.
  - by rewrite app_nil_r.
  - destruct (decide (seg = "" ∨ seg = ".")) as [[?|?]|_]; [done..|].
    destruct (decide (seg = "..")); [done|].
    by rewrite IH, reverse_cons, <-app_assoc.
Qed.

Lemma resolve_dots_clean_out (stack segs out : list string) :
  Forall clean stack → Forall slash_free segs →
  resolve_dots stack segs = Some out → Forall clean out.
Proof.
  intros Hst Hsegs. revert stack Hst.
  induction Hsegs as [|seg rest Hseg _ IH]; intros stack Hst; simpl.
  - intros [= <-]. by apply Forall_reverse.
  - destruct (decide (seg = "" ∨ seg = ".")) as [|Hn]; [by apply IH|].
    destruct (decide (seg = "..")) as [|Hn'].
    + destruct stack as [|top stack']; [done|].
      apply IH. by inversion_clear Hst.
    + apply IH. constructor; [|done]. unfold clean. tauto.
Qed.

Lemma segments_clean (p : string) (segs : list string) :
  segments p = Some segs → Forall clean segs.
Proof.
  apply resolve_dots_clean_out; [constructor|apply split_slash_slash_free].
Qed.

Lemma clean_slash_free (segs : list string) :
  Forall clean segs → Forall slash_free segs.
Proof. intros H. eapply Forall_impl; [exact H|]. unfold clean. tauto. Qed.

Lemma segments_render (segs : list string) :
  Forall clean segs → segments (render segs) = Some segs.
Proof.
  intros H. unfold segments, render. destruct segs as [|seg rest]; [done|].
  rewrite split_slash_join by by apply clean_slash_free.
  change (resolve_dots [] ("" :: seg :: rest))
    with (resolve_dots [] (seg :: rest)).
  by rewrite resolve_dots_clean_in.
Qed.


Lemma normalize_render (segs : list string) :
  Forall clean segs → normalize (render segs) = Ok (render segs).
Proof. intros H. unfold normalize. by rewrite segments_render. Qed.

Lemma lookup_path_render (fs : VirtualFileSystem) (segs : list string) :
  Forall clean segs → lookup_path fs (render segs) = fs !! render segs.
Proof. intros H. unfold lookup_path. by rewrite normalize_render. Qed.

Lemma lookup_path_normalized (fs : VirtualFileSystem) (p : string) :
  normalize p = Ok p → lookup_path fs p = fs !! p.
Proof. intros H. unfold lookup_path. by rewrite H. Qed.

Lemma read_normalized (fs : VirtualFileSystem) (p : string) (n : FileNode) :
  normalize p = Ok p → fs !! p = Some n → kind n = file →
  read fs p = Ok (default "" (content n)).
Proof. intros H Hn Hk. unfold read. by rewrite H, Hn, Hk. Qed.

Lemma lookup_path_segments (fs : VirtualFileSystem) (p : string) (segs : list string) :
  segments p = Some segs → lookup_path fs p = fs !! render segs.
Proof. intros H. unfold lookup_path, normalize. by rewrite H. Qed.

Lemma join_segments_app (l1 l2 : list string) :
  join_segments (l1 ++ l2) = join_segments l1 +:+ join_segments l2.
Proof.
  induction l1 as [|seg l1 IH]; [done|].
  simpl. by rewrite IH, !app_assoc_str.
Qed.

Lemma join_segments_cons_length (seg : string) (rest : list string) :
  seg ≠ "" → 1 < String.length (join_segments (seg :: rest)).
Proof.
  intros H.
  change (join_segments (seg :: rest))
    with (String "/" (seg +:+ join_segments rest)).
  change (String.length (String ?c ?s)) with (S (String.length s)).
  rewrite length_app_str. destruct seg; [done|]. simpl. lia.
Qed.

(** An ancestor is the root or a proper prefix ending before a "/". *)
Lemma ancestors_prefix (segs : list string) (a : string) :
  a ∈ ancestors segs →
  a = "/" ∨ ∃ rest, render segs = a +:+ "/" +:+ rest.
Proof.
  unfold ancestors. intros (i & -> & Hi)%list_elem_of_fmap.
  apply elem_of_seq in Hi as [_ Hi]. simpl in Hi.
  destruct i as [|i]; [left; by rewrite take_0|right].
  destruct segs as [|seg segs]; [simpl in Hi; lia|].
  simpl in Hi. assert (i < length segs) as Hi' by lia.
  destruct (drop i segs) as [|d ds] eqn:Hd.
  { apply (f_equal length) in Hd. rewrite length_drop in Hd. simpl in Hd. lia. }
  exists (d +:+ join_segments ds).
  rewrite firstn_cons.
  assert (seg :: segs = (seg :: take i segs) ++ d :: ds) as ->.
  { by rewrite <-Hd, <-app_comm_cons, take_drop. }
  unfold render at 1. simpl app at 1.
  change (render (seg :: take i segs)) with (join_segments (seg :: take i segs)).
  rewrite (join_segments_app (seg :: take i segs) (d :: ds)).
  reflexivity.
Qed.

Lemma ancestors_clean (segs : list string) (a : string) :
  Forall clean segs → a ∈ ancestors segs → normalize a = Ok a.
Proof.
  unfold ancestors. intros H (i & -> & _)%list_elem_of_fmap.
  apply normalize_render. by apply Forall_take.
Qed.

Lemma render_not_root (segs : list string) :
  Forall clean segs → segs ≠ [] → render segs ≠ "/".
Proof.
  intros H Hne Heq. destruct segs as [|seg rest]; [done|].
  inversion_clear H as [|?? (Hseg & _) _].
  pose proof (join_segments_cons_length seg rest Hseg) as Hlen.
  unfold render in Heq. rewrite Heq in Hlen. simpl in Hlen. lia.
Qed.

Lemma ancestors_shorter (segs : list string) (a : string) :
  Forall clean segs → a ∈ ancestors segs →
  String.length a < String.length (render segs).
Proof.
  intros H Ha. destruct (ancestors_prefix _ _ Ha) as [->|[rest Hr]].
  - destruct segs as [|seg segs]; [by apply elem_of_nil in Ha|].
    inversion_clear H as [|?? (Hseg & _) _].
    by apply join_segments_cons_length.
  - rewrite Hr, !length_app_str. simpl. lia.
Qed.

Lemma render_not_ancestor (segs : list string) :
  Forall clean segs → render segs ∉ ancestors segs.
Proof. intros H Ha. apply ancestors_shorter in Ha; [lia|done]. Qed.

End PathFacts.

(** ** create *)

Section CreateFacts.
  Import VFS.
  Implicit Types (fs : VirtualFileSystem) (p q a k c : string) (now : Z).

Lemma ensure_dirs_lookup now (l : list string) fs k :
  foldl (ensure_dir now) fs l !! k =
    match fs !! k with
    | Some n => Some n
    | None => if decide (k ∈ l) then Some (dir_node now k) else None
    end.
Proof.
  revert fs. induction l as [|a l IH]; intros fs; simpl.
  - destruct (fs !! k); [done|].
    destruct (decide (k ∈ [])) as [H|_]; [by apply elem_of_nil in H|done].
  - rewrite IH. unfold ensure_dir.
    destruct (fs !! a) as [na|] eqn:Ea.
    + destruct (fs !! k) eqn:Ek; [done|].
      assert (k ≠ a) by congruence.
      destruct (decide (k ∈ l)) as [Hin|Hin].
      * by rewrite decide_True by by right.
      * rewrite decide_False; [done|]. by intros [?|?]%elem_of_cons.
    + destruct (decide (a = k)) as [->|Hne].
      * rewrite lookup_insert_eq, Ea. by rewrite decide_True by by left.
      * rewrite lookup_insert_ne by done.
        destruct (fs !! k); [done|].
        destruct (decide (k ∈ l)) as [Hin|Hin].
        -- by rewrite decide_True by by right.
        -- rewrite decide_False; [done|].
           intros [?|?]%elem_of_cons; congruence.
Qed.

Lemma ensure_ancestors_lookup now (segs : list string) fs k :
  ensure_ancestors now segs fs !! k =
    match fs !! k with
    | Some n => Some n
    | None => if decide (k ∈ ancestors segs) then Some (dir_node now k) else None
    end.
Proof. apply ensure_dirs_lookup. Qed.

Lemma normalize_segments p q :
  normalize p = Ok q ↔ ∃ segs, segments p = Some segs ∧ q = render segs.
Proof.
  unfold normalize. destruct (segments p) as [segs|]; split.
  - intros [= <-]. by exists segs.
  - by intros (? & [= <-] & ->).
  - done.
  - by intros (? & ? & _).
Qed.

Lemma normalize_root p :
  normalize p = Ok "/" ↔ segments p = Some [].
Proof.
  rewrite normalize_segments. split.
  - intros (segs & Hs & Hr). destruct segs as [|seg rest]; [done|].
    exfalso. eapply (render_not_root (seg :: rest)); [|done..].
    by eapply segments_clean.
  - intros H. by exists [].
Qed.

(** The node that [create] leaves at the target. *)
Lemma create_Ok now fs p c (segs : list string) :
  segments p = Some segs → segs ≠ [] →
  is_directory fs p = false →
  ∃ created,
    create now fs p c =
      Ok (<[render segs := file_node created now (render segs) c]>
            (ensure_ancestors now segs fs)).
Proof.
  intros Hs Hne Hd. unfold create. rewrite Hs.
  destruct segs as [|seg rest]; [done|].
  unfold is_directory in Hd. rewrite (lookup_path_segments _ _ _ Hs) in Hd.
  destruct (fs !! render (seg :: rest)) as [n|]; [|by eexists].
  destruct (kind n); [by eexists|]. by rewrite bool_decide_eq_false in Hd.
Qed.

(** C3: [create] fails with [InvalidPath] when the path escapes the
    root or normalizes to the root (no segment left); otherwise it
    fails with [PathIsDirectory] when the target is a directory, and
    else it succeeds: the target is a file with the given content (an
    existing file is overwritten), every ancestor that was missing is
    now a directory, every ancestor that existed is unchanged, and so
    is every other node. *)
Theorem create_contract now fs p c :
  (normalize p = Err InvalidPath ∨ normalize p = Ok "/" →
     create now fs p c = Err InvalidPath) ∧
  (∀ q, normalize p = Ok q → q ≠ "/" →
     (is_directory fs p = true → create now fs p c = Err PathIsDirectory) ∧
     (is_directory fs p = false →
        ∃ fs', create now fs p c = Ok fs' ∧
          is_file fs' p = true ∧ read fs' p = Ok c ∧
          (∀ a, a ∈ ancestors_of p →
             if exists_ fs a then lookup_path fs' a = lookup_path fs a
             else is_directory fs' a = true) ∧
          (∀ k, k ≠ q → k ∉ ancestors_of p → fs' !! k = fs !! k))).
Proof.
  split.
  - intros [H|H%normalize_root]; unfold create.
    + unfold normalize in H. by destruct (segments p).
    + by rewrite H.
  - intros q (segs & Hs & ->)%normalize_segments Hq.
    assert (segs ≠ []) as Hne by by intros ->.
    pose proof (segments_clean _ _ Hs) as Hclean.
    split.
    + intros Hd. unfold create. rewrite Hs.
      destruct segs as [|seg rest]; [done|].
      unfold is_directory in Hd. rewrite (lookup_path_segments _ _ _ Hs) in Hd.
      destruct (fs !! render (seg :: rest)) as [n|]; [|done].
      apply bool_decide_eq_true in Hd. by rewrite Hd.
    + intros Hd. destruct (create_Ok now fs p c segs Hs Hne Hd) as [created ->].
      eexists. split; [done|].
      unfold is_file, read, ancestors_of, normalize.
      rewrite (lookup_path_segments _ _ _ Hs), Hs, lookup_insert_eq. simpl.
      repeat split.
      * intros a Ha.
        pose proof (ancestors_clean _ _ Hclean Ha) as Hn.
        assert (a ≠ render segs) as Hne'.
        { intros ->. by eapply render_not_ancestor. }
        unfold exists_, is_directory, lookup_path. rewrite Hn.
        rewrite lookup_insert_ne by done.
        rewrite ensure_ancestors_lookup.
        destruct (fs !! a) as [n|] eqn:Ea.
        -- by rewrite bool_decide_eq_true_2.
        -- rewrite bool_decide_eq_false_2 by by intros [? [=]].
           by rewrite decide_True.
      * intros k Hk Hka. rewrite lookup_insert_ne by done.
        rewrite ensure_ancestors_lookup.
        destruct (fs !! k); [done|]. by rewrite decide_False.
Qed.

End CreateFacts.

(** ** serialize and deserialize *)

Section SnapshotFacts.
  Import VFS.
  Implicit Types (fs : VirtualFileSystem) (p q a k c : string) (now : Z).

Lemma hydrate_normalized (l : list (string * FileNode)) :
  Forall (λ e, normalize e.1 = Ok e.1 ∧ path e.2 = e.1) l →
  hydrate l = Ok (list_to_map l).
Proof.
  induction 1 as [|[k n] l [Hk Hp] _ IH]; [done|].
  simpl in *. rewrite Hk, IH. do 2 f_equal. unfold with_path. destruct n; simpl in *; by subst.
Qed.

Lemma well_formed_keys fs :
  well_formed fs = true →
  Forall (λ e, normalize e.1 = Ok e.1 ∧ path e.2 = e.1) (map_to_list fs).
Proof.
  unfold well_formed. intros [H _]%andb_true_iff.
  rewrite forallb_forall in H. apply Forall_forall. intros e He.
  apply list_elem_of_In, H in He.
  apply andb_true_iff in He as [H1 H2].
  by apply bool_decide_eq_true in H1, H2.
Qed.

Lemma deserialize_serialize fs :
  well_formed fs = true → deserialize (serialize fs) = Ok fs.
Proof.
  intros Hwf. unfold deserialize, serialize.
  rewrite hydrate_normalized by by apply well_formed_keys.
  rewrite list_to_map_to_list.
  unfold well_formed in Hwf. apply andb_true_iff in Hwf as [_ ->]. done.
Qed.

End SnapshotFacts.

(** ** rename *)

Section RenameFacts.
  Import VFS.
  Implicit Types (fs st : VirtualFileSystem) (p q a k o n rest : string) (now : Z).

Lemma below_neq d rest : rest ≠ "" → below d rest ≠ d.
Proof.
  intros Hr H%(f_equal String.length). unfold below, dir_prefix in H.
  destruct (decide (d = "/")) as [->|]; rewrite !length_app_str in H;
    simpl in H; [|lia].
  destruct rest; [done|]. simpl in H. lia.
Qed.

Lemma below_inj d (r1 r2 : string) : below d r1 = below d r2 → r1 = r2.
Proof. unfold below. by intros H%(inj _). Qed.

Lemma rest_below_Some d k rest :
  rest_below d k = Some rest ↔ rest ≠ "" ∧ k = below d rest.
Proof.
  unfold rest_below, below.
  destruct (strip_prefix (dir_prefix d) k) as [r|] eqn:E.
  - apply strip_prefix_Some in E.
    destruct (decide (r = "")) as [->|Hr]; split.
    + done.
    + intros [Hne Hk]. rewrite E in Hk. apply (inj _) in Hk. congruence.
    + intros [= <-]. done.
    + intros [_ Hk]. rewrite E in Hk. apply (inj _) in Hk. by subst.
  - split; [done|]. intros [_ Hk%strip_prefix_Some]. congruence.
Qed.

Lemma move_key_Some o n k k' :
  move_key o n k = Some k' ↔
    (k = o ∧ k' = n) ∨
    (k ≠ o ∧ ∃ rest, rest ≠ "" ∧ k = below o rest ∧ k' = below n rest).
Proof.
  unfold move_key. destruct (decide (k = o)) as [->|Hne].
  - split; [intros [= <-]; by left|]. intros [[_ ->]|[? _]]; done.
  - rewrite fmap_Some. split.
    + intros (rest & [Hr Hk]%rest_below_Some & ->). right. eauto.
    + intros [[? _]|(_ & rest & Hr & Hk & ->)]; [done|].
      exists rest. split; [by apply rest_below_Some|done].
Qed.

(** Two nodes are never moved to the same place. *)
Lemma move_key_inj o n k1 k2 k' :
  move_key o n k1 = Some k' → move_key o n k2 = Some k' → k1 = k2.
Proof.
  rewrite !move_key_Some.
  intros [[-> ->]|(_ & r1 & Hr1 & -> & ->)] [[-> H]|(_ & r2 & Hr2 & -> & H)].
  - done.
  - symmetry in H. by apply below_neq in H.
  - by apply below_neq in H.
  - by apply below_inj in H as ->.
Qed.

Lemma move_key_nested o n k k' :
  move_key o n k = Some k' → nested o k = true ∧ nested n k' = true.
Proof.
  intros [[-> ->]|(_ & rest & Hr & -> & ->)]%move_key_Some;
    unfold nested; split; apply bool_decide_eq_true; try (by left).
  all: right; exists rest; by apply rest_below_Some.
Qed.

Lemma nested_move_key o n k : nested o k = true → is_Some (move_key o n k).
Proof.
  unfold nested, move_key. intros [->|[rest Hr]]%bool_decide_eq_true.
  - rewrite decide_True by done. by eexists.
  - destruct (decide (k = o)); [by eexists|]. rewrite Hr. by eexists.
Qed.

Lemma elem_of_moved o n fs k' x :
  (k', x) ∈ omap (moved_entry o n) (map_to_list fs) ↔
  ∃ k node, fs !! k = Some node ∧ move_key o n k = Some k' ∧ x = with_path k' node.
Proof.
  rewrite list_elem_of_omap. unfold moved_entry. split.
  - intros ([k node] & Hin%elem_of_map_to_list & Hm). simpl in Hm.
    destruct (move_key o n k) as [k''|] eqn:E; [|done].
    injection Hm as <- <-. eauto.
  - intros (k & node & Hk & Hm & ->). exists (k, node).
    split; [by apply elem_of_map_to_list|]. simpl. by rewrite Hm.
Qed.

Lemma relocate_moved o n fs k k' node :
  fs !! k = Some node → move_key o n k = Some k' →
  relocate o n fs !! k' = Some (with_path k' node).
Proof.
  intros Hk Hm. unfold relocate. apply lookup_union_Some_raw. left.
  apply elem_of_list_to_map_1'; [|apply elem_of_moved; eauto].
  intros y (k2 & node2 & Hk2 & Hm2 & ->)%elem_of_moved.
  assert (k2 = k) as -> by (by eapply move_key_inj). congruence.
Qed.

Lemma relocate_Some o n fs k' x :
  relocate o n fs !! k' = Some x →
  (∃ k node, fs !! k = Some node ∧ move_key o n k = Some k' ∧ x = with_path k' node)
  ∨ (fs !! k' = Some x ∧ move_key o n k' = None).
Proof.
  unfold relocate.
  intros [H%elem_of_list_to_map_2|[_ H]]%lookup_union_Some_raw.
  - left. by apply elem_of_moved.
  - right. by apply map_lookup_filter_Some in H.
Qed.

(** The nodes that lie neither at or below [o] nor at or below [n]
    stay as they are. *)
Lemma relocate_outside o n fs k :
  nested o k = false → nested n k = false →
  relocate o n fs !! k = fs !! k.
Proof.
  intros Ho Hn.
  assert (move_key o n k = None) as Hmk.
  { destruct (move_key o n k) eqn:E; [|done].
    apply move_key_nested in E as [? _]. congruence. }
  destruct (relocate o n fs !! k) as [x|] eqn:E.
  - apply relocate_Some in E as [(k0 & node & _ & Hm & _)|[? _]]; [|done].
    apply move_key_nested in Hm as [_ ?]. congruence.
  - unfold relocate in E. apply lookup_union_None in E as [_ E].
    apply map_lookup_filter_None in E as [E|E]; [done|].
    destruct (fs !! k) as [x|]; [|done]. by destruct (E x).
Qed.

(** Nothing is left at or below [o], except where the moved nodes
    themselves lie. *)
Lemma relocate_gone o n fs k :
  nested o k = true → nested n k = false → relocate o n fs !! k = None.
Proof.
  intros Hok Hnk.
  destruct (relocate o n fs !! k) as [x|] eqn:E; [exfalso|done].
  apply relocate_Some in E as [(k0 & node & _ & Hm & _)|[_ Hm]].
  - apply move_key_nested in Hm as [_ Hm]. congruence.
  - destruct (nested_move_key o n k Hok) as [k' Hk']. congruence.
Qed.

Lemma exists_lookup fs p : exists_ fs p = true ↔ is_Some (lookup_path fs p).
Proof. unfold exists_. apply bool_decide_eq_true. Qed.

Lemma not_exists_lookup fs p : exists_ fs p = false ↔ lookup_path fs p = None.
Proof.
  unfold exists_. rewrite bool_decide_eq_false. symmetry. apply eq_None_not_Some.
Qed.

(** The result of a successful [rename]. *)
Lemma rename_Ok now fs oldPath newPath o (nsegs : list string) :
  is_Some (lookup_path fs oldPath) → lookup_path fs newPath = None →
  normalize oldPath = Ok o → segments newPath = Some nsegs →
  rename now fs oldPath newPath
  = Ok (ensure_ancestors now nsegs (relocate o (render nsegs) fs)).
Proof.
  intros [x Hx] Hn Ho Hs. unfold rename. by rewrite Hx, Hn, Ho, Hs.
Qed.

(** C4: [rename] fails with [NotFound] when nothing is at the old
    path and with [AlreadyExists] when the new path is occupied,
    whatever the two paths are, the root among them.  Otherwise it
    fails only on a new path that does not normalize, and else gives
    a mapping in which the old node and each of its descendants
    [below o rest] are stored at [n] and [below n rest], under their
    new path and with their kind, content and timestamps; nothing is
    left at or below the old path, other than the moved nodes and the
    ancestors of the new path; every other node is as it was, and the
    missing ancestors of the new path are directories.  A reader sees
    the mapping before or the one after, and neither is a partial
    rename. *)
Theorem rename_contract now fs oldPath newPath :
  (exists_ fs oldPath = false →
     rename now fs oldPath newPath = Err NotFound) ∧
  (exists_ fs oldPath = true → exists_ fs newPath = true →
     rename now fs oldPath newPath = Err AlreadyExists) ∧
  (exists_ fs oldPath = true → exists_ fs newPath = false →
     (normalize newPath = Err InvalidPath →
        rename now fs oldPath newPath = Err InvalidPath) ∧
     (∀ o n, normalize oldPath = Ok o → normalize newPath = Ok n →
        ∃ fs', rename now fs oldPath newPath = Ok fs' ∧
          (∀ node, fs !! o = Some node →
             fs' !! n =
               Some {| path := n; kind := kind node; content := content node;
                       createdAt := createdAt node;
                       updatedAt := updatedAt node |}) ∧
          (∀ rest node, rest ≠ "" → fs !! below o rest = Some node →
             fs' !! below n rest =
               Some {| path := below n rest; kind := kind node;
                       content := content node;
                       createdAt := createdAt node;
                       updatedAt := updatedAt node |}) ∧
          (∀ k, nested o k = true → nested n k = false →
             k ∉ ancestors_of newPath → fs' !! k = None) ∧
          (∀ k, nested o k = false → nested n k = false →
             fs' !! k =
               match fs !! k with
               | Some node => Some node
               | None =>
                   if decide (k ∈ ancestors_of newPath)
                   then Some (dir_node now k) else None
               end))) ∧
  (∀ o n st, normalize oldPath = Ok o → normalize newPath = Ok n →
     st ∈ observable fs (rename now fs oldPath newPath) →
     ¬ partial_rename fs st o n).
Proof.
  split; [|split; [|split]].
  - intros H%not_exists_lookup. unfold rename. by rewrite H.
  - intros [x Hx]%exists_lookup [y Hy]%exists_lookup.
    unfold rename. by rewrite Hx, Hy.
  - intros Hold%exists_lookup Hnew%not_exists_lookup. split.
    + intros Hinv. destruct Hold as [x Hx]. unfold rename.
      rewrite Hx, Hnew. unfold normalize in Hinv.
      destruct (segments newPath); [done|].
      by destruct (normalize oldPath).
    + intros o n Ho (nsegs & Hns & ->)%normalize_segments.
      eexists. split; [by apply rename_Ok|].
      unfold ancestors_of. rewrite Hns.
      split; [|split; [|split]].
      * intros node Hnode. rewrite ensure_ancestors_lookup.
        rewrite (relocate_moved o (render nsegs) fs o (render nsegs) node);
          [done|done|].
        unfold move_key. by rewrite decide_True.
      * intros rest node Hrest Hnode. rewrite ensure_ancestors_lookup.
        rewrite (relocate_moved o (render nsegs) fs (below o rest)
                   (below (render nsegs) rest) node); [done|done|].
        apply move_key_Some. right. split; [by apply below_neq|]. eauto.
      * intros k Hok Hnk Hka. rewrite ensure_ancestors_lookup.
        rewrite relocate_gone by done. by rewrite decide_False.
      * intros k Hok Hnk. rewrite ensure_ancestors_lookup.
        by rewrite relocate_outside.
  - intros o n st Ho Hn Hst
      [(k1 & Hk1 & [x1 Hx1] & Hgone) (k2 & k2' & [x2 Hx2] & Hm & Hnot)].
    destruct (lookup_path fs oldPath) as [x|] eqn:Hold.
    2: { unfold rename in Hst. rewrite Hold in Hst.
         apply list_elem_of_singleton in Hst as ->. congruence. }
    destruct (lookup_path fs newPath) as [y|] eqn:Hnew.
    1: { unfold rename in Hst. rewrite Hold, Hnew in Hst.
         apply list_elem_of_singleton in Hst as ->. congruence. }
    apply normalize_segments in Hn as (nsegs & Hns & ->).
    rewrite (rename_Ok now fs oldPath newPath o nsegs) in Hst by done.
    simpl in Hst. apply elem_of_cons in Hst as [->|Hst]; [congruence|].
    apply list_elem_of_singleton in Hst as ->.
    rewrite ensure_ancestors_lookup in Hnot.
    by rewrite (relocate_moved o (render nsegs) fs k2 k2' x2) in Hnot.
Qed.

End RenameFacts.

(** ** Import resolution *)

Section ResolverFacts.
  Import VFS Resolver.
  Implicit Types (fs : VirtualFileSystem) (p q s : string).

Lemma existing_file_Some fs p q :
  existing_file fs p = Some q →
  normalize p = Ok q ∧ ∃ n, fs !! q = Some n ∧ VFS.kind n = file.
Proof.
  unfold existing_file. destruct (normalize p) as [q'|]; [|done].
  destruct (fs !! q') as [n|] eqn:E; [|done].
  destruct (decide (VFS.kind n = file)); [|done].
  intros [= <-]. eauto.
Qed.

Lemma first_existing_Some fs (l : list string) q :
  first_existing fs l = Some q → ∃ c, c ∈ l ∧ existing_file fs c = Some q.
Proof.
  induction l as [|c l IH]; [done|]. simpl.
  destruct (existing_file fs c) as [q'|] eqn:E.
  - intros [= <-]. exists c. split; [by left|done].
  - intros (c' & ? & ?)%IH. exists c'. split; [by right|done].
Qed.

Lemma probe_Some fs p q :
  probe fs p = Some q → ∃ c, existing_file fs c = Some q.
Proof.
  unfold probe. destruct (existing_file fs p) as [q'|] eqn:E.
  - intros [= <-]. eauto.
  - destruct (has_extension p); [done|].
    intros (c & _ & ?)%first_existing_Some. eauto.
Qed.

Lemma found_local s (k : ResolutionKind) (o : option string) :
  is_local (found s k o) = true →
  ∃ t, o = Some t ∧ found s k o = mkResolution s k t.
Proof. destruct o as [t|]; [eauto|done]. Qed.

(** A local resolution names a file node of the file system. *)
Lemma resolve_local_file fs s p :
  is_local (resolve s p fs) = true →
  ∃ n, fs !! resolvedTarget (resolve s p fs) = Some n ∧ VFS.kind n = file.
Proof.
  unfold resolve.
  destruct (starts_with "/" s).
  { intros (t & Ht & ->)%found_local. simpl.
    apply probe_Some in Ht as [c Hc]. by apply existing_file_Some in Hc as [_ ?]. }
  destruct (strip_prefix alias_prefix s) as [rest|].
  { intros (t & Ht & ->)%found_local. simpl.
    apply probe_Some in Ht as [c Hc]. by apply existing_file_Some in Hc as [_ ?]. }
  destruct (starts_with "./" s || starts_with "../" s).
  { intros (t & Ht & ->)%found_local. simpl.
    apply probe_Some in Ht as [c Hc]. by apply existing_file_Some in Hc as [_ ?]. }
  by destruct (is_url s).
Qed.



End ResolverFacts.

(** ** The walk of the module graph *)

Section WalkFacts.
  Import VFS Resolver Assembler WalkSpec.
  Variable transform : string → string → TransformResult.
  Variable fs : VirtualFileSystem.
  Variable e : string.

Local Abbreviation Inv := (Inv transform fs e).
Local Abbreviation walk_post := (walk_post transform fs e).
Local Abbreviation complete := (complete transform fs).
Local Abbreviation settled := (settled fs).
Local Abbreviation justified := (justified fs).
Local Abbreviation cached_ok := (cached_ok transform fs).
Local Abbreviation diagnostic_ok := (diagnostic_ok transform fs).
Local Abbreviation reachable := (reachable transform fs e).
Local Abbreviation imports_of := (imports_of transform fs).
Local Abbreviation visit := (visit transform fs).
Implicit Types (st : BuildState) (p q s t : string).

Lemma Ext_refl st : Ext st st.
Proof. by split. Qed.

Lemma Ext_trans st1 st2 st3 : Ext st1 st2 → Ext st2 st3 → Ext st1 st3.
Proof.
  intros [] []. split; [set_solver|auto..|]. by etrans.
Qed.

Lemma entry_of_ext st st' t :
  cache st ⊆ cache st' → is_Some (cache st !! t) → entry_of st' t = entry_of st t.
Proof.
  intros Hsub [x Hx]. unfold entry_of.
  by rewrite Hx, (lookup_weaken _ _ _ _ Hx Hsub).
Qed.


Lemma justified_ext st st' q s ent :
  cache st ⊆ cache st' → justified st q s ent → justified st' q s ent.
Proof.
  intros Hsub. unfold WalkSpec.justified.
  destruct (kind (resolve s q fs)); try done.
  all: intros [[x Hx] ->]; split;
    [exists x; by eapply lookup_weaken|symmetry; by apply entry_of_ext].
Qed.

Lemma settled_ext st st' q s : Ext st st' → settled st q s → settled st' q s.
Proof.
  intros [Hv Hd Hr _]. unfold WalkSpec.settled.
  destruct (kind (resolve s q fs)); auto.
  all: intros [H1 H2]; split; auto.
Qed.

Lemma cached_ok_ext st st' t x :
  blobs st `prefix_of` blobs st' → cached_ok st t x → cached_ok st' t x.
Proof.
  intros Hpre (n & out & Hn & Hk & Ht & H). exists n, out.
  split; [done|]. split; [done|]. split; [done|].
  destruct (extractedStyleText out); [done|].
  destruct H as (i & -> & Hi). exists i. split; [done|].
  by eapply prefix_lookup_Some.
Qed.

Lemma diagnostic_ok_ext st st' d :
  visited st ⊆ visited st' → diagnostic_ok st d → diagnostic_ok st' d.
Proof. intros Hv (? & ? & ?). split; [by apply Hv|done]. Qed.

Lemma complete_ext st st' q : Ext st st' → complete st q → complete st' q.
Proof. intros HE Hc s Hs. eapply settled_ext; [done|]. by apply Hc. Qed.

Lemma Ext_install st s ent : Ext st (install s ent st).
Proof.
  split; simpl; [done..| |done]. intros s' Hs'.
  destruct (decide (s = s')) as [->|].
  - by rewrite lookup_insert_eq.
  - by rewrite lookup_insert_ne.
Qed.

Lemma Ext_report st d : Ext st (report d st).
Proof. split; simpl; [done| |done..]. intros d' ?. set_solver. Qed.

Lemma Inv_report st d : Inv st → diagnostic_ok st d → Inv (report d st).
Proof.
  intros [] Hd. split; simpl; try done.
  intros d' [H| ->%list_elem_of_singleton]%elem_of_app;
    [exact (inv_diagnostics0 d' H)|exact Hd].
Qed.

Lemma Inv_install st q s ent :
  Inv st → q ∈ visited st → s ∈ imports_of q → justified st q s ent →
  Inv (install s ent st).
Proof.
  intros [Hfiles Htr Htv Hreach Hcache Hreg Hcached Hblobs Hdiag] Hq Hs Hj.
  split; simpl; try done.
  intros s' ent'. destruct (decide (s = s')) as [<-|].
  - rewrite lookup_insert_eq. intros [= <-].
    exists q. split; [done|]. split; [done|exact Hj].
  - rewrite lookup_insert_ne by done.
    intros (q0 & ? & ? & Hj0)%Hreg.
    exists q0. split; [done|]. split; [done|exact Hj0].
Qed.

Lemma cache_fresh st p : Inv st → p ∉ visited st → cache st !! p = None.
Proof.
  intros HI Hp. apply eq_None_not_Some.
  by rewrite (inv_cache _ _ _ _ HI).
Qed.

Lemma Ext_cached st p x (v : gset string) b sty tr :
  Inv st → p ∉ visited st →
  visited st ⊆ v →
  Ext st (mkBuildState v (<[p := x]> (cache st)) b (registry st) sty
            (diagnostics st) tr).
Proof.
  intros HI Hp Hv. split; simpl; [done..|].
  apply insert_subseteq. by apply cache_fresh.
Qed.

Lemma Inv_cached st p x b sty :
  let st' := mkBuildState ({[p]} ∪ visited st) (<[p := x]> (cache st)) b
               (registry st) sty (diagnostics st) (transformed st ++ [p]) in
  Inv st → p ∉ visited st → reachable p → is_Some (fs !! p) →
  blobs st `prefix_of` b →
  cached_ok st' p x →
  (∀ i t code, b !! i = Some (t, code) →
     blobs st !! i = Some (t, code) ∨ (t = p ∧ x = (Blob i, None))) →
  Inv st'.
Proof.
  intros st' HI Hp Hr Hf Hpre Hx Hb.
  pose proof (cache_fresh _ _ HI Hp) as Hc.
  destruct HI as [Hfiles Htr Htv Hreach Hcache Hreg Hcached Hblobs Hdiag].
  split; simpl.
  - intros q [->%elem_of_singleton|?]%elem_of_union; auto.
  - apply NoDup_app. split; [done|]. split; [|apply NoDup_singleton].
    intros q Hq ->%list_elem_of_singleton. by apply Hp, Htv.
  - intros q.
    rewrite elem_of_app, list_elem_of_singleton, Htv, elem_of_union,
      elem_of_singleton. tauto.
  - intros q [->%elem_of_singleton|?]%elem_of_union; auto.
  - intros q. destruct (decide (p = q)) as [->|].
    + rewrite lookup_insert_eq. split; [intros _|by eauto].
      by apply elem_of_union_l, elem_of_singleton.
    + rewrite lookup_insert_ne by done.
      rewrite Hcache, elem_of_union, elem_of_singleton.
      split; [tauto|]. by intros [->|?].
  - intros s ent (q & Hq & Hs & Hj)%Hreg.
    exists q. split; [by apply elem_of_union_r|]. split; [done|].
    eapply justified_ext; [|exact Hj]. simpl. by apply insert_subseteq.
  - intros t y. destruct (decide (p = t)) as [<-|].
    + rewrite lookup_insert_eq. by intros [= <-].
    + rewrite lookup_insert_ne by done. intros Hy%Hcached.
      by apply (cached_ok_ext st st').
  - intros i t code [Hold|[-> ->]]%Hb.
    + assert (p ≠ t) as Hne.
      { intros <-. apply Hblobs in Hold. congruence. }
      rewrite lookup_insert_ne by done. by eapply Hblobs.
    + by rewrite lookup_insert_eq.
  - intros d Hd%Hdiag. apply (diagnostic_ok_ext st st'); [|done].
    simpl. apply union_subseteq_r.
Qed.

Lemma Inv_add_module st p n out :
  Inv st → p ∉ visited st → reachable p →
  fs !! p = Some n → VFS.kind n = file →
  transform p (default "" (content n)) = Transformed out →
  extractedStyleText out = None →
  Inv (add_module p (executableSource out) (enter p st)).
Proof.
  intros HI Hp Hr Hn Hk Ht Hcss.
  apply (Inv_cached st p (Blob (length (blobs st)), None)
           (blobs st ++ [(p, executableSource out)]) (styles st));
    [done|done|done|by eexists|by apply prefix_app_r| |].
  - exists n, out. split; [done|]. split; [done|]. split; [done|].
    rewrite Hcss.
    exists (length (blobs st)). split; [done|]. simpl.
    by rewrite lookup_app_r, Nat.sub_diag by done.
  - intros i t code Hi.
    apply lookup_app_Some in Hi as [Hi|[Hle Hi]]; [by left|right].
    apply list_lookup_singleton_Some in Hi as [Hi [= <- <-]].
    split; [done|]. do 2 f_equal. lia.
Qed.

Lemma Inv_add_style st p n out css :
  Inv st → p ∉ visited st → reachable p →
  fs !! p = Some n → VFS.kind n = file →
  transform p (default "" (content n)) = Transformed out →
  extractedStyleText out = Some css →
  Inv (add_style p css (enter p st)).
Proof.
  intros HI Hp Hr Hn Hk Ht Hcss.
  apply (Inv_cached st p (Stub, Some css) (blobs st) (styles st ++ [css]));
    [done|done|done|by eexists|done| |].
  - exists n, out. split; [done|]. split; [done|]. split; [done|].
    by rewrite Hcss.
  - intros i t code Hi. by left.
Qed.

Lemma Ext_add_module st p code :
  Inv st → p ∉ visited st → Ext st (add_module p code (enter p st)).
Proof.
  intros HI Hp.
  exact (Ext_cached st p (Blob (length (blobs st)), None)
           ({[p]} ∪ visited st) (blobs st ++ [(p, code)]) (styles st)
           (transformed st ++ [p]) HI Hp (union_subseteq_r _ _)).
Qed.

Lemma Ext_add_style st p css :
  Inv st → p ∉ visited st → Ext st (add_style p css (enter p st)).
Proof.
  intros HI Hp.
  exact (Ext_cached st p (Stub, Some css) ({[p]} ∪ visited st) (blobs st)
           (styles st ++ [css]) (transformed st ++ [p]) HI Hp
           (union_subseteq_r _ _)).
Qed.

Lemma measure_mono st st' :
  visited st ⊆ visited st' →
  size (dom fs ∖ visited st') ≤ size (dom fs ∖ visited st).
Proof.
  intros H. apply subseteq_size.
  intros x [Hx Hx']%elem_of_difference. apply elem_of_difference.
  split; [done|]. intros Hx''. by apply Hx', H.
Qed.

Lemma measure_enter st p :
  is_Some (fs !! p) → p ∉ visited st →
  size (dom fs ∖ ({[p]} ∪ visited st)) < size (dom fs ∖ visited st).
Proof.
  intros Hf%elem_of_dom Hp. apply subset_size. split.
  - intros x [Hx Hx']%elem_of_difference. apply elem_of_difference.
    split; [done|]. intros Hx''. by apply Hx', elem_of_union_r.
  - intros H. assert (p ∈ dom fs ∖ visited st) as Hin
      by by apply elem_of_difference.
    apply H, elem_of_difference in Hin as [_ Hin].
    by apply Hin, elem_of_union_l, elem_of_singleton.
Qed.

(** One specifier dealt with, then the rest. *)
Lemma walk_post_step st st1 p s (rest : list string) (w : Walk) :
  Ext st st1 →
  (∀ q, q ∈ visited st1 → q ∉ visited st → complete st1 q) →
  settled st1 p s →
  walk_post st1 (λ st', ∀ s', s' ∈ rest → settled st' p s') w →
  walk_post st (λ st', ∀ s', s' ∈ s :: rest → settled st' p s') w.
Proof.
  intros HE Hnew Hs. destruct w as [[[q msg]|st']|]; simpl; [done| |done].
  intros (HI & HE' & Hnew' & Hrest). split; [done|].
  split; [by eapply Ext_trans|]. split.
  - intros q Hq Hq'. destruct (decide (q ∈ visited st1)).
    + eapply complete_ext; [done|]. by apply Hnew.
    + by apply Hnew'.
  - intros s' [->|?]%elem_of_cons; [|by apply Hrest].
    by eapply settled_ext.
Qed.

Lemma follow_post fuel p :
  (∀ t st, Inv st → reachable t → t ∉ visited st →
     size (dom fs ∖ visited st) < fuel →
     walk_post st (λ st', t ∈ visited st') (visit fuel t st)) →
  ∀ (specs : list string) st,
    Inv st → p ∈ visited st → (∀ s, s ∈ specs → s ∈ imports_of p) →
    size (dom fs ∖ visited st) < fuel →
    walk_post st (λ st', ∀ s, s ∈ specs → settled st' p s)
      (follow fs (visit fuel) p specs st).
Proof.
  intros Hrec specs. induction specs as [|s rest IH]; intros st HI Hp Hsub Hsz.
  { simpl. split; [done|]. split; [apply Ext_refl|].
    split; [done|]. by intros s ?%elem_of_nil. }
  assert (s ∈ imports_of p) as Hs by (apply Hsub; by left).
  assert (∀ s', s' ∈ rest → s' ∈ imports_of p) as Hsub'
    by (intros; apply Hsub; by right).
  assert (∀ st1 ent,
    Inv st1 → Ext st st1 →
    (∀ q, q ∈ visited st1 → q ∉ visited st → complete st1 q) →
    justified st1 p s ent →
    (is_Some (registry (install s ent st1) !! s) →
       p ∈ visited st1 → settled (install s ent st1) p s) →
    walk_post st (λ st', ∀ s', s' ∈ s :: rest → settled st' p s')
      (follow fs (visit fuel) p rest (install s ent st1))) as Hstep.
  { intros st1 ent HI1 HE1 Hnew1 Hj Hset.
    assert (p ∈ visited st1) as Hp1 by (by apply (ext_visited _ _ HE1)).
    apply (walk_post_step st (install s ent st1)).
    - eapply Ext_trans; [done|apply Ext_install].
    - intros q Hq Hq'. eapply complete_ext; [apply Ext_install|].
      by apply Hnew1.
    - apply Hset; [|done]. simpl. by rewrite lookup_insert_eq.
    - apply IH; [by eapply Inv_install|done|done|].
      simpl. pose proof (measure_mono _ _ (ext_visited _ _ HE1)). lia. }
  assert (kind (resolve s p fs) = unresolved ∨ kind (resolve s p fs) = external
          ∨ is_local (resolve s p fs) = true) as [Hk|[Hk|Hk]]
    by (unfold is_local; destruct (kind (resolve s p fs)); auto).
  - simpl. rewrite Hk.
    apply (walk_post_step st (report (mkDiagnostic s p) st)).
    + apply Ext_report.
    + done.
    + unfold WalkSpec.settled. rewrite Hk. simpl.
      apply elem_of_app. right. by apply list_elem_of_singleton.
    + apply IH; [|done|done|done].
      apply Inv_report; [done|]. by split.
  - simpl. rewrite Hk.
    apply (Hstep st); [done|apply Ext_refl|done| |].
    + unfold WalkSpec.justified. by rewrite Hk.
    + intros H _. unfold WalkSpec.settled. by rewrite Hk.
  - set (t := resolvedTarget (resolve s p fs)).
    assert (∀ st1, Inv st1 → Ext st st1 →
      (∀ q, q ∈ visited st1 → q ∉ visited st → complete st1 q) →
      t ∈ visited st1 →
      walk_post st (λ st', ∀ s', s' ∈ s :: rest → settled st' p s')
        (follow fs (visit fuel) p rest (install s (entry_of st1 t) st1)))
      as Hlocal.
    { intros st1 HI1 HE1 Hnew1 Ht1. apply Hstep; try done.
      - unfold WalkSpec.justified. fold t.
        assert (is_Some (cache st1 !! t)) by (by apply (inv_cache _ _ _ _ HI1)).
        unfold is_local in Hk. by destruct (kind (resolve s p fs)).
      - intros H _. unfold WalkSpec.settled. fold t. simpl.
        unfold is_local in Hk. by destruct (kind (resolve s p fs)). }
    assert (follow fs (visit fuel) p (s :: rest) st =
      match (if decide (t ∈ visited st) then Some (inr st) else visit fuel t st) with
      | Some (inr st') =>
          follow fs (visit fuel) p rest (install s (entry_of st' t) st')
      | failure => failure
      end) as ->.
    { simpl. fold t. unfold is_local in Hk.
      destruct (kind (resolve s p fs)); try done;
        by destruct (decide (t ∈ visited st));
          [|destruct (visit fuel t st) as [[?|?]|]]. }
    destruct (decide (t ∈ visited st)) as [Ht|Ht].
    + apply Hlocal; [done|apply Ext_refl|done|done].
    + assert (reachable t) as Hrt.
      { eapply reachable_import; [by apply (inv_reachable _ _ _ _ HI)|].
        exists s. by repeat split. }
      pose proof (Hrec t st HI Hrt Ht Hsz) as Hpost.
      destruct (visit fuel t st) as [[[q msg]|st']|]; simpl in Hpost |- *;
        [done| |done].
      destruct Hpost as (HI' & HE' & Hnew' & Ht').
      by apply Hlocal.
Qed.

Lemma visit_post fuel :
  ∀ t st, Inv st → reachable t → t ∉ visited st →
    size (dom fs ∖ visited st) < fuel →
    walk_post st (λ st', t ∈ visited st') (visit fuel t st).
Proof.
  induction fuel as [|fuel IH]; intros t st HI Hrt Ht Hsz; [lia|].
  simpl. destruct (fs !! t) as [n|] eqn:Hn; simpl.
  2: { split; [done|]. by rewrite Hn. }
  destruct (VFS.kind n) eqn:Hkind; simpl.
  2: { split; [done|]. rewrite Hn. by left. }
  destruct (transform t (default "" (content n))) as [out|msg] eqn:Htr; simpl.
  2: { split; [done|]. rewrite Hn. by right. }
  assert (is_Some (fs !! t)) as Hf by (by rewrite Hn).
  destruct (extractedStyleText out) as [css|] eqn:Hcss.
  - assert (imports_of t = []) as Himp.
    { unfold Assembler.imports_of. by rewrite Hn, Htr, Hcss. }
    simpl. split; [by eapply Inv_add_style|].
    split; [by apply Ext_add_style|].
    split; [|simpl; by apply elem_of_union_l, elem_of_singleton].
    intros q Hq Hq'. simpl in Hq.
    apply elem_of_union in Hq as [->%elem_of_singleton|?]; [|done].
    intros s Hs. rewrite Himp in Hs. by apply elem_of_nil in Hs.
  - assert (imports_of t = importSpecifiers out) as Himp.
    { unfold Assembler.imports_of. by rewrite Hn, Htr, Hcss. }
    set (st1 := add_module t (executableSource out) (enter t st)).
    assert (Inv st1) as HI1 by (by eapply Inv_add_module).
    assert (Ext st st1) as HE1 by (by apply Ext_add_module).
    pose proof (follow_post fuel t IH (importSpecifiers out) st1 HI1) as Hpost.
    destruct (follow fs (visit fuel) t (importSpecifiers out) st1)
      as [[[q msg]|st']|]; simpl in Hpost |- *.
    + apply Hpost; [simpl; set_solver|by rewrite Himp|].
      simpl. pose proof (measure_enter st t Hf Ht). lia.
    + destruct Hpost as (HI' & HE' & Hnew' & Hset);
        [simpl; set_solver|by rewrite Himp| |].
      { simpl. pose proof (measure_enter st t Hf Ht). lia. }
      split; [done|]. split; [by eapply Ext_trans|].
      assert (t ∈ visited st') as Ht'.
      { apply (ext_visited _ _ HE'). simpl. set_solver. }
      split; [|done].
      intros q Hq Hq'. destruct (decide (q ∈ visited st1)) as [Hq1|Hq1].
      * simpl in Hq1.
        apply elem_of_union in Hq1 as [->%elem_of_singleton|?]; [|done].
        intros s Hs. apply Hset. by rewrite <-Himp.
      * by apply Hnew'.
    + apply Hpost; [simpl; set_solver|by rewrite Himp|].
      simpl. pose proof (measure_enter st t Hf Ht). lia.
Qed.

Lemma Inv_initial : Inv initial.
Proof.
  split; simpl.
  - by intros q ?%elem_of_empty.
  - apply NoDup_nil_2.
  - intros q. split; [by intros ?%elem_of_nil|by intros ?%elem_of_empty].
  - by intros q ?%elem_of_empty.
  - intros q. rewrite lookup_empty.
    split; [by intros [? ?]|by intros ?%elem_of_empty].
  - intros s ent. by rewrite lookup_empty.
  - intros t x. by rewrite lookup_empty.
  - intros i t code. by rewrite lookup_nil.
  - by intros d ?%elem_of_nil.
Qed.

(** After a walk from the empty state every visited file is complete,
    so the visited files are the reachable ones. *)
Lemma reachable_visited st :
  e ∈ visited st → (∀ q, q ∈ visited st → complete st q) →
  ∀ q, reachable q → q ∈ visited st.
Proof.
  intros He Hc q. induction 1 as [|p t _ IH (s & Hs & Hl & <-)]; [done|].
  pose proof (Hc p IH s Hs) as H. unfold WalkSpec.settled in H.
  unfold is_local in Hl.
  by destruct (kind (resolve s p fs)); try done; destruct H.
Qed.

Lemma walk_from_entry :
  walk_post initial (λ st', e ∈ visited st') (visit (S (size fs)) e initial).
Proof.
  apply visit_post; [apply Inv_initial|constructor|set_solver|].
  simpl. rewrite difference_empty_L, size_dom. lia.
Qed.

End WalkFacts.

Section BuildFacts.
  Import VFS Resolver Assembler WalkSpec.
  Variable transform : string → string → TransformResult.
  Variable fs : VirtualFileSystem.

Local Abbreviation reachable := (reachable transform fs).
Local Abbreviation imports_of := (imports_of transform fs).
Local Abbreviation visit := (visit transform fs).
Local Abbreviation build_state := (build_state transform fs).
Local Abbreviation build := (build transform fs).
Implicit Types (st : BuildState) (p q s t e : string).




Lemma reachable_file e q :
  (∃ n, fs !! e = Some n ∧ VFS.kind n = file) →
  reachable e q → ∃ n, fs !! q = Some n ∧ VFS.kind n = file.
Proof.
  intros He. induction 1 as [|p t _ _ (s & _ & Hl & <-)]; [done|].
  by apply resolve_local_file.
Qed.

(** The state in which the walk from the entry [e] ends. *)
Lemma walk_result e st :
  visit (S (size fs)) e initial = Some (inr st) →
  Inv transform fs e st ∧
  (∀ q, reachable e q ↔ q ∈ visited st) ∧
  (∀ q, q ∈ visited st → complete transform fs st q).
Proof.
  intros Hv. pose proof (walk_from_entry transform fs e) as Hpost.
  rewrite Hv in Hpost. destruct Hpost as (HI & _ & Hnew & He).
  assert (∀ q, q ∈ visited st → complete transform fs st q) as Hc.
  { intros q Hq. apply Hnew; [done|]. by intros ?%elem_of_empty. }
  split; [done|]. split; [|done].
  intros q. split.
  - by apply reachable_visited.
  - by apply (inv_reachable _ _ _ _ HI).
Qed.

Lemma build_state_total entryPath : is_Some (build_state entryPath).
Proof.
  unfold Assembler.build_state.
  destruct (normalize entryPath) as [e|]; [|done].
  pose proof (walk_from_entry transform fs e) as Hpost.
  by destruct (visit (S (size fs)) e initial) as [[?|?]|].
Qed.

(** The placeholders leave everything but the registry as it is. *)
Lemma install_all_fields (l : list Diagnostic) st :
  let st' := foldr (λ d, install (missingSpecifier d) placeholder) st l in
  visited st' = visited st ∧ cache st' = cache st ∧ blobs st' = blobs st ∧
  transformed st' = transformed st ∧ diagnostics st' = diagnostics st ∧
  styles st' = styles st.
Proof. induction l as [|d l IH]; [done|exact IH]. Qed.

Lemma install_all_registry (l : list Diagnostic) st s :
  registry (foldr (λ d, install (missingSpecifier d) placeholder) st l) !! s =
    if decide (s ∈ missingSpecifier <$> l) then Some placeholder
    else registry st !! s.
Proof.
  induction l as [|d l IH].
  { destruct (decide (s ∈ missingSpecifier <$> [])) as [H|];
      [by apply elem_of_nil in H|done]. }
  rewrite fmap_cons. simpl.
  destruct (decide (s ∈ missingSpecifier d :: (missingSpecifier <$> l)))
    as [H|H].
  - destruct (decide (missingSpecifier d = s)) as [<-|Hne].
    + by rewrite lookup_insert_eq.
    + rewrite lookup_insert_ne by done. rewrite IH.
      apply elem_of_cons in H as [?|Hl]; [done|].
      by rewrite decide_True.
  - apply not_elem_of_cons in H as [Hne Hl].
    rewrite lookup_insert_ne by done. rewrite IH.
    by rewrite decide_False.
Qed.







Lemma build_state_Ok entryPath e st :
  normalize entryPath = Ok e →
  build_state entryPath = Some (inr st) →
  ∃ st0, visit (S (size fs)) e initial = Some (inr st0)
         ∧ st = install_placeholders (install e (entry_of st0 e) st0).
Proof.
  unfold Assembler.build_state. intros ->.
  destruct (visit (S (size fs)) e initial) as [[?|st0]|]; [done| |done].
  intros [= <-]. eauto.
Qed.

(** The state in which a build ends: the state of the walk, with the
    entry and then the placeholders added to the registry. *)
Lemma build_state_final entryPath e st :
  normalize entryPath = Ok e →
  build_state entryPath = Some (inr st) →
  ∃ st0, visit (S (size fs)) e initial = Some (inr st0) ∧
    visited st = visited st0 ∧ cache st = cache st0 ∧
    blobs st = blobs st0 ∧ transformed st = transformed st0 ∧
    diagnostics st = diagnostics st0 ∧
    ∀ s, registry st !! s =
      if decide (s ∈ missingSpecifier <$> diagnostics st0)
      then Some placeholder
      else if decide (e = s) then Some (entry_of st0 e)
      else registry st0 !! s.
Proof.
  intros Hn Hb. destruct (build_state_Ok _ _ _ Hn Hb) as (st0 & Hv & ->).
  exists st0. split; [done|]. unfold install_placeholders.
  destruct (install_all_fields (diagnostics (install e (entry_of st0 e) st0))
              (install e (entry_of st0 e) st0)) as (-> & -> & -> & -> & -> & _).
  repeat (split; [done|]).
  intros s. rewrite install_all_registry. simpl.
  destruct (decide (s ∈ missingSpecifier <$> diagnostics st0)); [done|].
  destruct (decide (e = s)) as [->|].
  - by rewrite lookup_insert_eq.
  - by rewrite lookup_insert_ne.
Qed.


(** A build fails only on a file that is missing, a directory, or
    rejected by the Transformer. *)
Lemma build_state_failure entryPath e q message :
  normalize entryPath = Ok e →
  build_state entryPath = Some (inl (BuildFailed q message)) →
  fails_at transform fs e q message.
Proof.
  unfold Assembler.build_state. intros ->.
  pose proof (walk_from_entry transform fs e) as Hpost.
  destruct (visit (S (size fs)) e initial) as [[[q' msg']|st0]|]; [|done..].
  by intros [= <- <-].
Qed.
End BuildFacts.

(** ** The invariants of section 3 *)

Section WellFormedFacts.
  Import VFS.
  Implicit Types (fs : VirtualFileSystem) (p q a k c : string) (now : Z).

Lemma ancestors_of_normalized k :
  normalize k = Ok k →
  ∃ segs, segments k = Some segs ∧ render segs = k ∧ Forall clean segs
          ∧ ancestors_of k = ancestors segs.
Proof.
  intros (segs & Hs & Hr)%normalize_segments. exists segs.
  split; [done|]. split; [done|]. split; [by eapply segments_clean|].
  unfold ancestors_of. by rewrite Hs.
Qed.

(** [well_formed], as a property of the lookups. *)
Lemma well_formed_spec fs :
  well_formed fs = true ↔
  ∀ k n, fs !! k = Some n →
    normalize k = Ok k ∧ path n = k ∧
    (kind n = file → ∀ a, a ∈ ancestors_of k → is_directory fs a = true).
Proof.
  unfold well_formed, ancestor_invariant.
  rewrite andb_true_iff, !forallb_forall. split.
  - intros [H1 H2] k n Hk.
    assert (In (k, n) (map_to_list fs)) as Hin
      by by apply list_elem_of_In, elem_of_map_to_list.
    specialize (H1 _ Hin). specialize (H2 _ Hin). simpl in H1, H2.
    apply andb_true_iff in H1 as [Hn%bool_decide_eq_true Hp%bool_decide_eq_true].
    split; [done|]. split; [done|]. intros Hfile a Ha.
    unfold ancestors_ok in H2. rewrite Hfile in H2.
    unfold ancestors_of in Ha. destruct (segments k) as [segs|]; [|done].
    rewrite forallb_forall in H2. by apply H2, list_elem_of_In.
  - intros H. split.
    + intros [k n] Hin%list_elem_of_In%elem_of_map_to_list. simpl.
      destruct (H k n Hin) as (Hn & Hp & _).
      apply andb_true_iff. by rewrite !bool_decide_eq_true.
    + intros [k n] Hin%list_elem_of_In%elem_of_map_to_list. simpl.
      destruct (H k n Hin) as (Hn & _ & Ha).
      unfold ancestors_ok. destruct (kind n) eqn:Hk; [|done].
      destruct (ancestors_of_normalized k Hn) as (segs & Hs & _ & _ & Heq).
      rewrite Hs. apply forallb_forall. intros a Hin'%list_elem_of_In.
      apply Ha; [done|]. by rewrite Heq.
Qed.

Lemma create_inv now fs p c fs' :
  create now fs p c = Ok fs' →
  ∃ segs created,
    segments p = Some segs ∧ segs ≠ [] ∧
    is_directory fs p = false ∧
    fs' = <[render segs := file_node created now (render segs) c]>
            (ensure_ancestors now segs fs).
Proof.
  unfold create. intros H.
  destruct (segments p) as [segs|] eqn:Hs; [|done].
  exists segs.
  unfold is_directory. rewrite (lookup_path_segments _ _ _ Hs).
  destruct segs as [|seg rest]; [done|].
  destruct (fs !! render (seg :: rest)) as [n|] eqn:Hq.
  - destruct (kind n) eqn:Hk; [|done]. injection H as <-.
    exists (createdAt n). split; [done|]. split; [done|].
    split; [|done]. apply bool_decide_eq_false. congruence.
  - injection H as <-. by exists now.
Qed.

(** [create] keeps the invariants, unless an ancestor of the target is
    a file: the contract of [create] names no failure for that case. *)
Lemma create_well_formed now fs p c fs' :
  well_formed fs = true →
  (∀ a, a ∈ ancestors_of p → is_file fs a = false) →
  create now fs p c = Ok fs' →
  well_formed fs' = true.
Proof.
  rewrite !well_formed_spec.
  intros Hwf Hanc (segs & created & Hs & Hne & Hdir & ->)%create_inv.
  pose proof (segments_clean _ _ Hs) as Hclean.
  set (q := render segs) in *.
  assert (ancestors_of p = ancestors segs) as Hanc_eq
    by (unfold ancestors_of; by rewrite Hs).
  assert (∀ a, a ∈ ancestors segs →
    is_directory (<[q := file_node created now q c]>
                    (ensure_ancestors now segs fs)) a = true) as Hnew.
  { intros a Ha.
    assert (a ≠ q) as Haq by (intros ->; by eapply render_not_ancestor).
    unfold is_directory.
    rewrite lookup_path_normalized by by eapply ancestors_clean.
    rewrite lookup_insert_ne by done. rewrite ensure_ancestors_lookup.
    destruct (fs !! a) as [n|] eqn:Hn; [|by rewrite decide_True].
    apply bool_decide_eq_true.
    specialize (Hanc a). rewrite Hanc_eq in Hanc. specialize (Hanc Ha).
    unfold is_file in Hanc.
    rewrite lookup_path_normalized in Hanc by by eapply ancestors_clean.
    rewrite Hn in Hanc. apply bool_decide_eq_false in Hanc.
    by destruct (kind n). }
  intros k n. destruct (decide (q = k)) as [<-|Hqk].
  - rewrite lookup_insert_eq. intros [= <-]. simpl.
    split; [by apply normalize_render|]. split; [done|].
    intros _ a Ha. apply Hnew.
    unfold ancestors_of, q in Ha.
    by rewrite (segments_render segs Hclean) in Ha.
  - rewrite lookup_insert_ne by done. rewrite ensure_ancestors_lookup.
    destruct (fs !! k) as [n'|] eqn:Hk.
    + intros [= <-]. destruct (Hwf k n' Hk) as (Hn & Hp & Ha).
      split; [done|]. split; [done|]. intros Hfile a Hin.
      specialize (Ha Hfile a Hin).
      destruct (ancestors_of_normalized k Hn) as (ks & _ & _ & Hks & Heq).
      rewrite Heq in Hin.
      pose proof (ancestors_clean _ _ Hks Hin) as Hna.
      unfold is_directory in Ha |- *.
      rewrite lookup_path_normalized in Ha |- * by done.
      destruct (fs !! a) as [na|] eqn:Hfa; [|done].
      assert (q ≠ a) as Hqa.
      { intros <-. unfold is_directory in Hdir.
        rewrite (lookup_path_segments _ _ _ Hs) in Hdir. fold q in Hdir.
        rewrite Hfa in Hdir. congruence. }
      rewrite lookup_insert_ne by done.
      by rewrite ensure_ancestors_lookup, Hfa.
    + destruct (decide (k ∈ ancestors segs)) as [Hin|]; [|done].
      intros [= <-]. simpl.
      split; [by eapply ancestors_clean|]. by split.
Qed.

End WellFormedFacts.

(** * The claims *)

(** ** ToolCallBadge.tsx *)

Section BadgeClaims.
  Import Badge Scenarios.

Lemma getToolCallMessage_editor (t : ToolInvocation) :
  toolName t = "str_replace_editor" →
  getToolCallMessage t =
    let command := command (args t) in
    let path := default "" (path (args t)) in
    if decide (command = Some "create") then "Creating " +:+ path
    else if decide (command = Some "view") then "Viewing " +:+ path
    else if decide (command = Some "str_replace") then "Editing " +:+ path
    else if decide (command = Some "insert") then "Editing " +:+ path
    else if decide (command = Some "undo_edit") then "Attempting undo"
    else "Processing file".
Proof.
  intros Hn. unfold getToolCallMessage. rewrite Hn, or_default_empty.
  by rewrite decide_True.
Qed.

Lemma getToolCallMessage_manager (t : ToolInvocation) :
  toolName t = "file_manager" →
  getToolCallMessage t =
    let command := command (args t) in
    let path := default "" (path (args t)) in
    if decide (command = Some "rename") then "Renaming " +:+ path
    else if decide (command = Some "delete") then "Deleting " +:+ path
    else "Managing file".
Proof.
  intros Hn. unfold getToolCallMessage. rewrite Hn, or_default_empty.
  rewrite decide_False by done. by rewrite decide_True.
Qed.

(** C1, as the specification states it, fails: a [file_manager]
    invocation whose command is [rename_file], with path [/old.jsx],
    is shown as "Managing file", not as "Renaming /old.jsx". *)
Lemma file_manager_rename_file_is_generic :
  ¬ (∀ (t : ToolInvocation) (p : string),
       toolName t = "file_manager" → path (args t) = Some p →
       (command (args t) = Some "rename_file" →
          getToolCallMessage t = "Renaming " +:+ p) ∧
       (command (args t) = Some "delete_file" →
          getToolCallMessage t = "Deleting " +:+ p)).
Proof.
  intros H.
  destruct (H (invocation "file_manager" (Some "rename_file") (Some "/old.jsx")
                 call None) "/old.jsx" eq_refl eq_refl) as [H1 _].
  specialize (H1 eq_refl). vm_compute in H1. discriminate H1.
Qed.

(** C1, amended: the commands that the badge knows of the
    [file_manager] tool are [rename] and [delete].  For these the
    message is "Renaming p" and "Deleting p", where [p] is [args.path]
    or the empty string; every other command, [rename_file] and
    [delete_file] among them, gets the fallback "Managing file". *)
Theorem getToolCallMessage_file_manager (t : ToolInvocation) :
  toolName t = "file_manager" →
  let p := default "" (path (args t)) in
  (command (args t) = Some "rename" → getToolCallMessage t = "Renaming " +:+ p) ∧
  (command (args t) = Some "delete" → getToolCallMessage t = "Deleting " +:+ p) ∧
  (command (args t) ≠ Some "rename" → command (args t) ≠ Some "delete" →
     getToolCallMessage t = "Managing file").
Proof.
  intros Hn p. rewrite (getToolCallMessage_manager t Hn). fold p. simpl.
  split; [|split].
  - intros ->. by rewrite decide_True.
  - intros ->. rewrite decide_False by done. by rewrite decide_True.
  - intros H1 H2. by rewrite !decide_False.
Qed.

(** C8: the message of a [str_replace_editor] invocation, command by
    command, with [args.path] or the empty string as the path; and the
    tool name itself for every tool other than [str_replace_editor] and
    [file_manager]. *)
Theorem getToolCallMessage_cases (t : ToolInvocation) :
  let c := command (args t) in
  let p := default "" (path (args t)) in
  (toolName t = "str_replace_editor" →
     (c = Some "create" → getToolCallMessage t = "Creating " +:+ p) ∧
     (c = Some "view" → getToolCallMessage t = "Viewing " +:+ p) ∧
     (c = Some "str_replace" ∨ c = Some "insert" →
        getToolCallMessage t = "Editing " +:+ p) ∧
     (c = Some "undo_edit" → getToolCallMessage t = "Attempting undo") ∧
     (c ∉ [Some "create"; Some "view"; Some "str_replace"; Some "insert";
           Some "undo_edit"] →
        getToolCallMessage t = "Processing file")) ∧
  (toolName t ≠ "str_replace_editor" → toolName t ≠ "file_manager" →
     getToolCallMessage t = toolName t).
Proof.
  intros c p. split.
  - intros Hn. rewrite (getToolCallMessage_editor t Hn). fold c p. simpl.
    repeat split.
    + intros ->. by rewrite decide_True.
    + intros ->. rewrite decide_False by done. by rewrite decide_True.
    + intros [-> | ->].
      * rewrite !decide_False by done. by rewrite decide_True.
      * rewrite !decide_False by done. by rewrite decide_True.
    + intros ->. rewrite !decide_False by done. by rewrite decide_True.
    + intros H. rewrite !not_elem_of_cons in H.
      destruct H as (? & ? & ? & ? & ? & _). by rewrite !decide_False.
  - intros H1 H2. unfold getToolCallMessage. by rewrite !decide_False.
Qed.

Lemma has_class_dot :
  has_class "bg-emerald-500" "w-2 h-2 rounded-full bg-emerald-500" = true
  ∧ has_class "animate-spin" "w-2 h-2 rounded-full bg-emerald-500" = false.
Proof. by vm_compute. Qed.

Lemma has_class_spinner :
  has_class "animate-spin" "w-3 h-3 animate-spin text-blue-600" = true
  ∧ has_class "bg-emerald-500" "w-3 h-3 animate-spin text-blue-600" = false.
Proof. by vm_compute. Qed.

Lemma has_class_plain :
  has_class "bg-emerald-500" "text-neutral-700" = false
  ∧ has_class "animate-spin" "text-neutral-700" = false
  ∧ has_class "bg-emerald-500"
      "inline-flex items-center gap-2 mt-2 px-3 py-1.5 bg-neutral-50 rounded-lg text-xs font-mono border border-neutral-200" = false
  ∧ has_class "animate-spin"
      "inline-flex items-center gap-2 mt-2 px-3 py-1.5 bg-neutral-50 rounded-lg text-xs font-mono border border-neutral-200" = false.
Proof. by vm_compute. Qed.

Lemma truthy_isComplete (t : ToolInvocation) :
  truthy (isComplete t) =
    is_result (state t) && from_option truthy false (result t).
Proof.
  unfold isComplete, js_and. destruct (state t); simpl; try done.
  by destruct (result t).
Qed.

(** C9: the badge shows the green dot exactly when the state is
    [result] and the result is present and truthy, and the spinner in
    every other case; the text shown is the message in both variants. *)
Theorem ToolCallBadge_indicator (t : ToolInvocation) :
  let completed := is_result (state t) && from_option truthy false (result t) in
  (completed = true ↔
     state t = result_state ∧ ∃ r, result t = Some r ∧ truthy r = true) ∧
  shows_green_dot (ToolCallBadge t) = completed ∧
  shows_spinner (ToolCallBadge t) = negb completed ∧
  text_content (ToolCallBadge t) = getToolCallMessage t.
Proof.
  intros completed. split.
  { unfold completed. rewrite andb_true_iff. split.
    - intros [Hs Hr]. split; [by destruct (state t)|].
      destruct (result t) as [r|]; [by exists r|done].
    - intros [-> (r & -> & Hr)]. done. }
  destruct has_class_dot as [Hd1 Hd2].
  destruct has_class_spinner as [Hs1 Hs2].
  destruct has_class_plain as (Hp1 & Hp2 & Hp3 & Hp4).
  unfold ToolCallBadge, shows_green_dot, shows_spinner.
  rewrite truthy_isComplete. fold completed.
  destruct completed; simpl;
    rewrite ?Hd1, ?Hd2, ?Hs1, ?Hs2, ?Hp1, ?Hp2, ?Hp3, ?Hp4; simpl;
    by rewrite ?app_empty_r.
Qed.

(** C10: the message depends on the tool name, [args.command] and
    [args.path] only: two invocations that agree on these three get the
    same message, whatever their other fields are. *)
Theorem getToolCallMessage_noninterference (t1 t2 : ToolInvocation) :
  toolName t1 = toolName t2 →
  command (args t1) = command (args t2) →
  path (args t1) = path (args t2) →
  getToolCallMessage t1 = getToolCallMessage t2.
Proof.
  intros Hn Hc Hp. unfold getToolCallMessage. by rewrite Hn, Hc, Hp.
Qed.

End BadgeClaims.

Lemma getToolCallMessage_file_manager_witness :
  Badge.getToolCallMessage
    (Scenarios.invocation "file_manager" (Some "rename") (Some "/old.jsx")
       Badge.call None) = "Renaming /old.jsx"
  ∧ Badge.getToolCallMessage
      (Scenarios.invocation "file_manager" (Some "delete") (Some "/temp.jsx")
         Badge.call None) = "Deleting /temp.jsx"
  ∧ Badge.getToolCallMessage
      (Scenarios.invocation "file_manager" (Some "delete_file") (Some "/temp.jsx")
         Badge.call None) = "Managing file".
Proof.
  split; [|split].
  - apply (getToolCallMessage_file_manager
             (Scenarios.invocation "file_manager" (Some "rename") (Some "/old.jsx")
                Badge.call None)); reflexivity.
  - apply (getToolCallMessage_file_manager
             (Scenarios.invocation "file_manager" (Some "delete") (Some "/temp.jsx")
                Badge.call None)); reflexivity.
  - apply (getToolCallMessage_file_manager
             (Scenarios.invocation "file_manager" (Some "delete_file")
                (Some "/temp.jsx") Badge.call None));
      [reflexivity|discriminate..].
Defined.

Lemma getToolCallMessage_cases_witness :
  Badge.getToolCallMessage
    (Scenarios.invocation "str_replace_editor" (Some "create") None
       Badge.call None) = "Creating "
  ∧ Badge.getToolCallMessage
      (Scenarios.invocation "str_replace_editor" (Some "unknown_command")
         (Some "/test.jsx") Badge.call None) = "Processing file"
  ∧ Badge.getToolCallMessage
      (Scenarios.invocation "unknown_tool" None None Badge.call None) = "unknown_tool".
Proof.
  split; [|split].
  - apply (getToolCallMessage_cases
             (Scenarios.invocation "str_replace_editor" (Some "create") None
                Badge.call None)); reflexivity.
  - apply (getToolCallMessage_cases
             (Scenarios.invocation "str_replace_editor" (Some "unknown_command")
                (Some "/test.jsx") Badge.call None)); [reflexivity|].
    simpl. rewrite !not_elem_of_cons.
    repeat split; (discriminate || apply not_elem_of_nil).
  - apply (getToolCallMessage_cases
             (Scenarios.invocation "unknown_tool" None None Badge.call None));
      discriminate.
Defined.

Lemma getToolCallMessage_noninterference_witness :
  Badge.getToolCallMessage
    (Scenarios.invocation "str_replace_editor" (Some "view") (Some "/App.jsx")
       Badge.call None)
  = Badge.getToolCallMessage
      {| Badge.toolCallId := "77"; Badge.toolName := "str_replace_editor";
         Badge.args :=
           {| Badge.command := Some "view"; Badge.path := Some "/App.jsx";
              Badge.new_path := Some "/elsewhere";
              Badge.other := [("view_range", JsArray [JsNull; JsBool true])] |};
         Badge.state := Badge.result_state;
         Badge.result := Some (JsString "Success") |}.
Proof.
  apply getToolCallMessage_noninterference; reflexivity.
Defined.

(** ** The virtual file system *)

Lemma create_contract_witness :
  (∃ fs', VFS.create 0 ∅ "/a/b/c.jsx" "x" = VFS.Ok fs' ∧
     VFS.is_file fs' "/a/b/c.jsx" = true ∧
     VFS.read fs' "/a/b/c.jsx" = VFS.Ok "x" ∧
     VFS.is_directory fs' "/a" = true ∧
     VFS.is_directory fs' "/a/b" = true)
  ∧ VFS.create 0 Scenarios.fs_old "/old" "x" = VFS.Err VFS.PathIsDirectory
  ∧ VFS.create 0 Scenarios.fs_old "/old/../.." "x" = VFS.Err VFS.InvalidPath
  ∧ VFS.create 0 Scenarios.fs_old "/old/.." "x" = VFS.Err VFS.InvalidPath.
Proof.
  split; [|split; [|split]].
  - destruct (create_contract 0 ∅ "/a/b/c.jsx" "x") as [_ H].
    destruct (H "/a/b/c.jsx") as [_ H']; [reflexivity|discriminate|].
    destruct H' as (fs' & Hc & Hf & Hr & Hanc & _); [reflexivity|].
    exists fs'. split; [exact Hc|]. split; [exact Hf|]. split; [exact Hr|].
    split.
    + apply (Hanc "/a"). apply list_elem_of_In. simpl. tauto.
    + apply (Hanc "/a/b"). apply list_elem_of_In. simpl. tauto.
  - destruct (create_contract 0 Scenarios.fs_old "/old" "x") as [_ H].
    destruct (H "/old") as [H' _]; [reflexivity|discriminate|].
    apply H'. vm_compute. reflexivity.
  - destruct (create_contract 0 Scenarios.fs_old "/old/../.." "x") as [H _].
    apply H. left. reflexivity.
  - destruct (create_contract 0 Scenarios.fs_old "/old/.." "x") as [H _].
    apply H. right. reflexivity.
Defined.

Lemma rename_contract_witness :
  (∃ fs', VFS.rename 0 Scenarios.fs_old "/old" "/new" = VFS.Ok fs' ∧
     VFS.exists_ fs' "/new/x.jsx" = true ∧
     VFS.read fs' "/new/x.jsx" = VFS.Ok "x" ∧
     VFS.is_directory fs' "/new" = true ∧
     VFS.path <$> (fs' !! "/new/x.jsx") = Some "/new/x.jsx" ∧
     VFS.exists_ fs' "/old/x.jsx" = false ∧
     VFS.exists_ fs' "/old" = false)
  ∧ VFS.rename 0 Scenarios.fs_old "/absent" "/new" = VFS.Err VFS.NotFound
  ∧ VFS.rename 0 Scenarios.fs_old "/absent" "/" = VFS.Err VFS.NotFound
  ∧ VFS.rename 0 ∅ "/" "/x" = VFS.Err VFS.NotFound
  ∧ VFS.rename 0 Scenarios.fs_old "/old" "/" = VFS.Err VFS.AlreadyExists
  ∧ VFS.rename 0 Scenarios.fs_old "/old" "/old/x.jsx"
    = VFS.Err VFS.AlreadyExists
  ∧ VFS.rename 0 Scenarios.fs_old "/old" "/../new" = VFS.Err VFS.InvalidPath.
Proof.
  split; [|split; [|split; [|split; [|split; [|split]]]]].
  - destruct (rename_contract 0 Scenarios.fs_old "/old" "/new")
      as (_ & _ & H & _).
    destruct H as [_ H]; [vm_compute; reflexivity|vm_compute; reflexivity|].
    destruct (H "/old" "/new" eq_refl eq_refl)
      as (fs' & Hr & Hroot & Hsub & Hgone & _).
    pose proof (Hsub "x.jsx" (VFS.file_node 0 0 "/old/x.jsx" "x")) as Hx.
    change (VFS.below "/old" "x.jsx") with "/old/x.jsx" in Hx.
    change (VFS.below "/new" "x.jsx") with "/new/x.jsx" in Hx.
    simpl in Hx.
    specialize (Hx ltac:(discriminate) ltac:(vm_compute; reflexivity)).
    pose proof (Hroot (VFS.dir_node 0 "/old") ltac:(vm_compute; reflexivity))
      as Hn.
    simpl in Hn.
    assert (("/old/x.jsx" ∉ VFS.ancestors_of "/new")
            ∧ ("/old" ∉ VFS.ancestors_of "/new")) as [Ha1 Ha2].
    { change (VFS.ancestors_of "/new") with ["/"].
      split; (apply not_elem_of_cons; split; [discriminate|apply not_elem_of_nil]). }
    assert (fs' !! "/old/x.jsx" = None) as Hox.
    { apply Hgone; [vm_compute; reflexivity..|exact Ha1]. }
    assert (fs' !! "/old" = None) as Ho.
    { apply Hgone; [vm_compute; reflexivity..|exact Ha2]. }
    exists fs'. split; [exact Hr|].
    unfold VFS.exists_, VFS.is_directory.
    rewrite (read_normalized fs' "/new/x.jsx" _ eq_refl Hx eq_refl).
    rewrite !lookup_path_normalized by reflexivity.
    rewrite Hx, Hn, Hox, Ho. repeat split.
  - destruct (rename_contract 0 Scenarios.fs_old "/absent" "/new") as (H & _).
    apply H. vm_compute. reflexivity.
  - destruct (rename_contract 0 Scenarios.fs_old "/absent" "/") as (H & _).
    apply H. vm_compute. reflexivity.
  - destruct (rename_contract 0 ∅ "/" "/x") as (H & _).
    apply H. vm_compute. reflexivity.
  - destruct (rename_contract 0 Scenarios.fs_old "/old" "/") as (_ & H & _).
    apply H; vm_compute; reflexivity.
  - destruct (rename_contract 0 Scenarios.fs_old "/old" "/old/x.jsx")
      as (_ & H & _).
    apply H; vm_compute; reflexivity.
  - destruct (rename_contract 0 Scenarios.fs_old "/old" "/../new")
      as (_ & _ & H & _).
    destruct H as [H _]; [vm_compute; reflexivity|vm_compute; reflexivity|].
    apply H. reflexivity.
Defined.

(** ** Import resolution and module graph assembly *)

Section ResolutionClaims.
  Import VFS Resolver.

Lemma starts_with_strip_prefix (p s : string) :
  starts_with p s = false → strip_prefix p s = None.
Proof.
  unfold starts_with. intros H%bool_decide_eq_false.
  by apply eq_None_not_Some.
Qed.

(** C5: whatever the importer and the file system, a specifier that
    matches none of the absolute, aliased and relative rules and is no
    network URL resolves to an external address: the pinned, versioned
    one for [react] and for [react-dom], and the CDN address made of the
    specifier for every other package, [lucide-react] for instance. *)
Theorem resolve_bare_specifier (importerPath : string) (fs : VirtualFileSystem) :
  (∀ specifier,
     starts_with "/" specifier = false →
     starts_with "@/" specifier = false →
     starts_with "./" specifier = false →
     starts_with "../" specifier = false →
     is_url specifier = false →
     resolve specifier importerPath fs =
       mkResolution specifier external (external_url specifier)
     ∧ (specifier ≠ "react" → specifier ≠ "react-dom" →
        external_url specifier = "https://esm.sh/" +:+ specifier)) ∧
  resolve "lucide-react" importerPath fs =
    mkResolution "lucide-react" external "https://esm.sh/lucide-react" ∧
  resolve "react" importerPath fs =
    mkResolution "react" external "https://esm.sh/react@19" ∧
  resolve "react-dom" importerPath fs =
    mkResolution "react-dom" external "https://esm.sh/react-dom@19".
Proof.
  split; [|by repeat split].
  intros s H1 H2%starts_with_strip_prefix H3 H4 H5. split.
  - unfold resolve, alias_prefix. by rewrite H1, H2, H3, H4, H5.
  - intros Hr Hd. unfold external_url. by rewrite !decide_False.
Qed.

End ResolutionClaims.

Lemma resolve_bare_specifier_witness :
  Resolver.resolve "lucide-react" "/components/Button.jsx" Scenarios.fs_app =
    Resolver.mkResolution "lucide-react" Resolver.external
      "https://esm.sh/lucide-react"
  ∧ Resolver.resolve "react" "/App.jsx" Scenarios.fs_app
    = Resolver.resolve "react" "/deep/down/File.tsx" Scenarios.fs_cycle.
Proof.
  split.
  - destruct (resolve_bare_specifier "/components/Button.jsx" Scenarios.fs_app)
      as [H _].
    destruct (H "lucide-react") as [-> Hurl]; [reflexivity..|].
    rewrite Hurl; [reflexivity|discriminate..].
  - destruct (resolve_bare_specifier "/App.jsx" Scenarios.fs_app)
      as (_ & _ & -> & _).
    destruct (resolve_bare_specifier "/deep/down/File.tsx" Scenarios.fs_cycle)
      as (_ & _ & -> & _).
    reflexivity.
Defined.

Section BuildClaims.
  Import VFS Resolver Assembler WalkSpec.
  Variable transform : string → string → TransformResult.
  Variable fs : VirtualFileSystem.

(** C6: when the entry is a file and the Transformer rejects no
    reachable file, the build succeeds whatever the imports resolve to.
    Every specifier of a reachable file that resolves to nothing from
    that file is reported in a diagnostic, and the registry holds the
    placeholder under it, also when the same string resolves from
    another file.  The diagnostics report nothing else. *)
Theorem build_unresolved_nonfatal (entryPath e : string) :
  normalize entryPath = Ok e →
  is_file fs entryPath = true →
  (∀ q n message, reachable transform fs e q → fs !! q = Some n →
     transform q (default "" (content n)) ≠ SyntaxError message) →
  ∃ r, build transform fs entryPath = inr r ∧
    (∀ q s, reachable transform fs e q → s ∈ imports_of transform fs q →
       kind (resolve s q fs) = unresolved →
       mkDiagnostic s q ∈ result_diagnostics r ∧
       result_registry r !! s = Some placeholder) ∧
    (∀ d, d ∈ result_diagnostics r →
       reachable transform fs e (importer d) ∧
       missingSpecifier d ∈ imports_of transform fs (importer d) ∧
       kind (resolve (missingSpecifier d) (importer d) fs) = unresolved).
Proof.
  intros Hn Hfile Hsyn.
  assert (∃ n, fs !! e = Some n ∧ VFS.kind n = file) as He.
  { unfold is_file, lookup_path in Hfile. rewrite Hn in Hfile.
    destruct (fs !! e) as [n|]; [|done]. exists n. split; [done|].
    by apply bool_decide_eq_true in Hfile. }
  destruct (build_state_total transform fs entryPath) as [w Hw].
  destruct w as [[q msg]|st].
  - exfalso.
    apply (build_state_failure _ _ _ _ _ _ Hn) in Hw as [Hr Hf].
    destruct (reachable_file _ _ _ _ He Hr) as (n & Hq & Hk).
    rewrite Hq in Hf. destruct Hf as [Hd|Hs]; [congruence|].
    by eapply Hsyn.
  - destruct (build_state_final _ _ _ _ _ Hn Hw)
      as (st0 & Hv & _ & _ & _ & _ & Hdiag & Hreg).
    destruct (walk_result _ _ _ _ Hv) as (HI & Hreach & Hcomplete).
    eexists. split; [unfold build; by rewrite Hw|].
    simpl. rewrite Hdiag. split.
    + intros q s Hq Hs Hk.
      pose proof (Hcomplete q (proj1 (Hreach q) Hq) s Hs) as Hd.
      unfold settled in Hd. rewrite Hk in Hd. split; [done|].
      rewrite Hreg. rewrite decide_True; [done|].
      apply list_elem_of_fmap. by exists (mkDiagnostic s q).
    + intros d Hd.
      destruct (inv_diagnostics _ _ _ _ HI d Hd) as (Hi & Hs & Hk).
      split; [by apply Hreach|done].
Qed.


End BuildClaims.

Lemma scan_transform_total (path rawSource message : string) :
  Assembler.scan_transform path rawSource ≠ Assembler.SyntaxError message.
Proof.
  unfold Assembler.scan_transform.
  by destruct (Resolver.ends_with ".css" path).
Qed.

Lemma build_unresolved_nonfatal_witness :
  (∃ r, Assembler.build Assembler.scan_transform Scenarios.fs_missing "/App.jsx"
        = inr r ∧
     Assembler.mkDiagnostic "./missing" "/App.jsx"
       ∈ Assembler.result_diagnostics r ∧
     Assembler.result_registry r !! "./missing" = Some Assembler.placeholder)
  ∧ match Assembler.build Assembler.scan_transform Scenarios.fs_missing
            "/App.jsx" with
    | inr r =>
        Assembler.result_diagnostics r
          = [Assembler.mkDiagnostic "./missing" "/App.jsx"]
        ∧ size (Assembler.result_registry r) = 2
    | inl _ => False
    end
  ∧ match Assembler.build Assembler.scan_transform Scenarios.fs_shadowed
            "/App.jsx" with
    | inr r =>
        Assembler.result_diagnostics r
          = [Assembler.mkDiagnostic "./x" "/App.jsx"]
        ∧ Assembler.result_registry r !! "./x" = Some Assembler.placeholder
    | inl _ => False
    end.
Proof.
  split; [|split].
  - destruct (build_unresolved_nonfatal Assembler.scan_transform
                Scenarios.fs_missing "/App.jsx" "/App.jsx")
      as (r & Hr & H & _).
    + reflexivity.
    + vm_compute. reflexivity.
    + intros q n message _ _. apply scan_transform_total.
    + exists r. split; [exact Hr|].
      apply (H "/App.jsx" "./missing").
      * constructor.
      * apply list_elem_of_In. vm_compute. left. reflexivity.
      * vm_compute. reflexivity.
  - vm_compute. repeat split.
  - vm_compute. repeat split.
Defined.


(** ** Further properties of section 8 of the specification *)

Example resolve_alias_example :
  Resolver.resolve "@/components/Button" "/App.jsx"
    (Scenarios.fs_of [("/components/Button.jsx", "export default 1")])
  = Resolver.mkResolution "@/components/Button" Resolver.aliased
      "/components/Button.jsx".
Proof. vm_compute. reflexivity. Qed.

Example resolve_relative_example :
  Resolver.resolve "./helper" "/utils/a.js"
    (Scenarios.fs_of [("/utils/a.js", "import h from './helper'");
                      ("/utils/helper.ts", "export const h = 1")])
  = Resolver.mkResolution "./helper" Resolver.relative "/utils/helper.ts".
Proof. vm_compute. reflexivity. Qed.

Example build_single_file_example :
  match Assembler.build Assembler.scan_transform Scenarios.fs_app "/App.jsx" with
  | inr r =>
      size (Assembler.result_registry r) = 1
      ∧ Assembler.result_diagnostics r = []
      ∧ Assembler.entrySpecifier r = "/App.jsx"
  | inl _ => False
  end.
Proof. vm_compute. repeat split. Qed.

(** A file that the Transformer rejects fails the build, with its path
    and the Transformer's message. *)
Lemma build_fails_on_syntax_error
    (transform : string → string → Assembler.TransformResult)
    (fs : VFS.VirtualFileSystem) (entryPath e message : string)
    (n : VFS.FileNode) :
  VFS.normalize entryPath = VFS.Ok e →
  fs !! e = Some n → VFS.kind n = VFS.file →
  transform e (default "" (VFS.content n)) = Assembler.SyntaxError message →
  Assembler.build transform fs entryPath
  = inl (Assembler.BuildFailed e message).
Proof.
  intros Hn He Hk Ht. unfold Assembler.build, Assembler.build_state.
  rewrite Hn. simpl. by rewrite He, Hk, Ht.
Qed.

(** * What the badge text tells

Further properties of [src/components/chat/ToolCallBadge.tsx]. *)

Section BadgeText.
  Import Badge.

(** The two switches, with the effective path named. *)
Lemma getToolCallMessage_known (t : ToolInvocation) :
  toolName t = "str_replace_editor" ∨ toolName t = "file_manager" →
  ∃ p, p = default "" (path (args t)) ∧
    ((toolName t = "str_replace_editor" ∧
      getToolCallMessage t =
        if decide (command (args t) = Some "create") then "Creating " +:+ p
        else if decide (command (args t) = Some "view") then "Viewing " +:+ p
        else if decide (command (args t) = Some "str_replace") then "Editing " +:+ p
        else if decide (command (args t) = Some "insert") then "Editing " +:+ p
        else if decide (command (args t) = Some "undo_edit") then "Attempting undo"
        else "Processing file")
     ∨ (toolName t = "file_manager" ∧
        getToolCallMessage t =
          if decide (command (args t) = Some "rename") then "Renaming " +:+ p
          else if decide (command (args t) = Some "delete") then "Deleting " +:+ p
          else "Managing file")).
Proof.
  intros [Hn|Hn]; eexists; (split; [reflexivity|]); [left|right];
    (split; [done|]); unfold getToolCallMessage;
    rewrite Hn, or_default_empty.
  - by rewrite decide_True.
  - rewrite decide_False by done. by rewrite decide_True.
Qed.

(** X1: among the invocations of the two known tools, the message tells
    the tool and the action: two invocations with the same message
    have the same tool name and the same command, except that
    [str_replace] and [insert] share "Editing" and that all
    unrecognised commands share the fallback. *)
Theorem message_identifies_tool_and_action (t1 t2 : ToolInvocation) :
  toolName t1 = "str_replace_editor" ∨ toolName t1 = "file_manager" →
  toolName t2 = "str_replace_editor" ∨ toolName t2 = "file_manager" →
  getToolCallMessage t1 = getToolCallMessage t2 →
  let c1 := command (args t1) in
  let c2 := command (args t2) in
  toolName t1 = toolName t2 ∧
  (toolName t1 = "str_replace_editor" →
     (c1 = Some "create" ↔ c2 = Some "create") ∧
     (c1 = Some "view" ↔ c2 = Some "view") ∧
     (c1 = Some "undo_edit" ↔ c2 = Some "undo_edit") ∧
     (c1 = Some "str_replace" ∨ c1 = Some "insert" ↔
      c2 = Some "str_replace" ∨ c2 = Some "insert")) ∧
  (toolName t1 = "file_manager" →
     (c1 = Some "rename" ↔ c2 = Some "rename") ∧
     (c1 = Some "delete" ↔ c2 = Some "delete")).
Proof.
  intros K1 K2 H c1 c2. subst c1 c2.
  destruct (getToolCallMessage_known t1 K1) as (p1 & _ & M1).
  destruct (getToolCallMessage_known t2 K2) as (p2 & _ & M2).
  destruct M1 as [[N1 M1]|[N1 M1]], M2 as [[N2 M2]|[N2 M2]];
    rewrite M1, M2 in H; clear M1 M2 K1 K2;
    repeat case_decide; vm_compute in H; try discriminate H;
    (split; [congruence|]);
    (split; intros N; [|try congruence]; try congruence);
    repeat split; try congruence; intuition congruence.
Qed.

(** X2: for the commands that show a path, the message tells the path:
    two invocations of the known tools with the same message show the
    same effective path ([args.path], or the empty string when it is
    missing). *)
Theorem message_identifies_path (t1 t2 : ToolInvocation) :
  toolName t1 = "str_replace_editor" ∧
    command (args t1) ∈
      [Some "create"; Some "view"; Some "str_replace"; Some "insert"]
  ∨ toolName t1 = "file_manager" ∧
    command (args t1) ∈ [Some "rename"; Some "delete"] →
  toolName t2 = "str_replace_editor" ∨ toolName t2 = "file_manager" →
  getToolCallMessage t1 = getToolCallMessage t2 →
  default "" (path (args t1)) = default "" (path (args t2)).
Proof.
  intros K1 K2 H.
  assert (K1' : toolName t1 = "str_replace_editor"
                ∨ toolName t1 = "file_manager") by (destruct K1; tauto).
  destruct (getToolCallMessage_known t1 K1') as (p1 & -> & M1).
  destruct (getToolCallMessage_known t2 K2) as (p2 & -> & M2).
  set (p1 := default "" (path (args t1))) in *.
  set (p2 := default "" (path (args t2))) in *.
  clearbody p1 p2.
  destruct M1 as [[N1 M1]|[N1 M1]], M2 as [[N2 M2]|[N2 M2]];
    rewrite M1, M2 in H; clear M1 M2 K1' K2;
    destruct K1 as [[N1' Hc]|[N1' Hc]]; try congruence;
    repeat (apply elem_of_cons in Hc as [Hc|Hc]);
    try (by apply elem_of_nil in Hc);
    rewrite Hc in H;
    repeat case_decide; try congruence;
    vm_compute in H; try discriminate H;
    congruence.
Qed.

(** X3: the badge text is empty exactly when the tool name is; every
    invocation of a named tool is labelled. *)
Theorem message_empty_iff_tool_name_empty (t : ToolInvocation) :
  getToolCallMessage t = "" ↔ toolName t = "".
Proof.
  destruct (decide (toolName t = "str_replace_editor"
                    ∨ toolName t = "file_manager")) as [K|K].
  - destruct (getToolCallMessage_known t K) as (p & _ & M).
    split; intros H.
    + destruct M as [[_ M]|[_ M]]; rewrite M in H;
        repeat case_decide; vm_compute in H; discriminate H.
    + destruct K as [K|K]; rewrite K in H; discriminate H.
  - unfold getToolCallMessage.
    rewrite decide_False by tauto. rewrite decide_False by tauto.
    reflexivity.
Qed.

(** X4: the rendered badge carries the message and the completion bit
    and nothing else: two invocations render the same element tree
    exactly when their messages agree and both or neither are
    complete. *)
Theorem badge_equal_iff_message_and_completion (t1 t2 : ToolInvocation) :
  ToolCallBadge t1 = ToolCallBadge t2 ↔
  getToolCallMessage t1 = getToolCallMessage t2 ∧
  (is_result (state t1) && from_option truthy false (result t1)) =
  (is_result (state t2) && from_option truthy false (result t2)).
Proof.
  unfold ToolCallBadge.
  rewrite !truthy_isComplete.
  destruct (is_result (state t1) && from_option truthy false (result t1)),
    (is_result (state t2) && from_option truthy false (result t2));
    split.
  all: try (intros H; injection H as H; split; [exact H|reflexivity]).
  all: try (intros [H _]; rewrite H; reflexivity).
  all: try (intros H; discriminate H).
  all: intros [_ H]; discriminate H.
Qed.

(** X5: an empty [path] is rendered as a missing one: invocations that
    differ only in [path] being the empty string or absent (and in
    anything the badge does not read) render the same badge. *)
Theorem badge_empty_path_as_absent (t1 t2 : ToolInvocation) :
  toolName t1 = toolName t2 →
  command (args t1) = command (args t2) →
  state t1 = state t2 →
  result t1 = result t2 →
  path (args t1) = Some "" →
  path (args t2) = None →
  ToolCallBadge t1 = ToolCallBadge t2.
Proof.
  intros Hn Hc Hs Hr H1 H2.
  assert (Hm : getToolCallMessage t1 = getToolCallMessage t2).
  { unfold getToolCallMessage. rewrite Hn, Hc, H1, H2. reflexivity. }
  unfold ToolCallBadge. rewrite !truthy_isComplete, Hm, Hs, Hr.
  reflexivity.
Qed.
End BadgeText.

Lemma message_identifies_tool_and_action_witness :
  let t1 := Scenarios.invocation "str_replace_editor" (Some "str_replace")
              (Some "/App.jsx") Badge.call None in
  let t2 := Scenarios.invocation "str_replace_editor" (Some "insert")
              (Some "/App.jsx") Badge.result_state (Some (JsString "ok")) in
  Badge.getToolCallMessage t1 = Badge.getToolCallMessage t2
  ∧ Badge.toolName t1 = Badge.toolName t2
  ∧ (Badge.command (Badge.args t1) = Some "create"
     ↔ Badge.command (Badge.args t2) = Some "create").
Proof.
  intros t1 t2.
  split; [reflexivity|].
  destruct (message_identifies_tool_and_action t1 t2) as (Hn & He & _).
  - left. reflexivity.
  - left. reflexivity.
  - reflexivity.
  - split; [exact Hn|]. exact (proj1 (He eq_refl)).
Defined.

Lemma message_identifies_path_witness :
  let t1 := Scenarios.invocation "file_manager" (Some "rename")
              (Some "/old.jsx") Badge.call None in
  let t2 := Scenarios.invocation "file_manager" (Some "rename")
              (Some "/old.jsx") Badge.result_state (Some (JsBool true)) in
  Badge.getToolCallMessage t1 = Badge.getToolCallMessage t2
  ∧ default "" (Badge.path (Badge.args t1))
    = default "" (Badge.path (Badge.args t2)).
Proof.
  intros t1 t2.
  split; [reflexivity|].
  apply (message_identifies_path t1 t2).
  - right. split; [reflexivity|]. apply elem_of_cons. left. reflexivity.
  - right. reflexivity.
  - reflexivity.
Defined.

Lemma badge_empty_path_as_absent_witness :
  Badge.ToolCallBadge
    (Scenarios.invocation "str_replace_editor" (Some "create") (Some "")
       Badge.call None)
  = Badge.ToolCallBadge
      (Scenarios.invocation "str_replace_editor" (Some "create") None
         Badge.call None).
Proof.
  apply badge_empty_path_as_absent; reflexivity.
Defined.
